(** * eatwhat: the Express server of the HK dish search prototype

    A shallow embedding of the request handlers of the server
    ([POST /api/upload], [GET /api/search], [GET /api/place]) and of the
    JavaScript library operations they rely on, followed by the
    properties of the Place Aggregation and Media Pipeline.

    Conventions of the embedding.
    - A JavaScript string is the list of its UTF-16 code units, each a
      number in [N].  [toLowerCase] follows the Unicode case tables of
      the engine, which are not part of the program: the handlers that
      call it take the tables as a parameter, and the properties use
      three facts about them (class [LowerCases]).
    - [undefined] / [null] / a missing JSON key is [None]; a query or
      form parameter is a string or absent, and [Search.route] adds the
      repeated or bracketed query parameter, which is neither.
    - System calls are interpreted over an explicit disk state and
      throw exactly when that state makes them throw (a missing file,
      unparsable JSON).  Device faults are not part of the state.
    - The places provider is an oracle: for every request the handler
      issues, it says when the promise settles and how. *)

From Stdlib Require Import NArith List Bool Lia String Ascii Permutation Sorted.
From stdpp Require Import base option list gmap.
Import ListNotations.

Open Scope N_scope.
Open Scope list_scope.

(** ** JavaScript strings *)

Module JS.

Abbreviation jsstring := (list N).

(** A string literal of the source, as code units. *)
Fixpoint lit (s : string) : jsstring :=
  match s with
  | EmptyString => []
  | String c s' => N_of_ascii c :: lit s'
  end.

(** [a === b] on strings. *)
Definition streq (a b : jsstring) : bool := bool_decide (a = b).

(** Truthiness of a string value: [""] is falsy. *)
Definition truthy (s : jsstring) : bool :=
  match s with [] => false | _ :: _ => true end.

(** [a || b] where [a] may be undefined or a string. *)
Definition orElse (a b : option jsstring) : option jsstring :=
  match a with
  | Some (c :: s) => Some (c :: s)
  | _ => b
  end.

(** [!x] for a value that is undefined or a string. *)
Definition falsy (a : option jsstring) : bool :=
  match a with
  | Some (_ :: _) => false
  | _ => true
  end.

(** A value spliced into a template literal: [undefined] prints as the
    word. *)
Definition splice (a : option jsstring) : jsstring :=
  match a with
  | Some s => s
  | None => lit "undefined"
  end.

(** [String.prototype.toLowerCase] applies the Unicode case tables of
    the engine.  The tables are not part of the program; the code that
    lower-cases takes them as a parameter. *)
Class CaseTable := toLowerCase : jsstring -> jsstring.

(** The part of the tables that concerns ASCII text: A-Z go to a-z and
    nothing else changes. *)
Definition lowerUnit (c : N) : N :=
  if (65 <=? c) && (c <=? 90) then c + 32 else c.

Definition asciiLower (s : jsstring) : jsstring := List.map lowerUnit s.

Definition isAscii (s : jsstring) : bool := forallb (fun c => c <? 128) s.

(** What the properties use of the tables.  Lower-casing keeps the empty
    string empty and no other; it leaves no A-Z behind, and no character
    lower-cases to one of A-Z; on ASCII text it maps A-Z to a-z and
    changes nothing else. *)
Class LowerCases (table : CaseTable) : Prop := {
  lower_truthy : forall s, truthy (toLowerCase s) = truthy s;
  lower_no_capital :
    forall s c, In c (toLowerCase s) -> negb ((65 <=? c) && (c <=? 90)) = true;
  lower_ascii : forall s, isAscii s = true -> toLowerCase s = asciiLower s
}.

(** WhiteSpace and LineTerminator code points of ECMAScript, the ones
    [trim] strips. *)
Definition isWhiteSpace (c : N) : bool :=
  ((9 <=? c) && (c <=? 13)) || (c =? 32) || (c =? 160) || (c =? 5760)
  || ((8192 <=? c) && (c <=? 8202)) || (c =? 8232) || (c =? 8233)
  || (c =? 8239) || (c =? 8287) || (c =? 12288) || (c =? 65279).

Fixpoint trimStart (s : jsstring) : jsstring :=
  match s with
  | [] => []
  | c :: s' => if isWhiteSpace c then trimStart s' else s
  end.

Definition trimEnd (s : jsstring) : jsstring := rev (trimStart (rev s)).

Definition trim (s : jsstring) : jsstring := trimEnd (trimStart s).

(** [p] is a prefix of [s]. *)
Fixpoint startsWith (s p : jsstring) {struct p} : bool :=
  match p, s with
  | [], _ => true
  | _ :: _, [] => false
  | a :: p', b :: s' => (a =? b) && startsWith s' p'
  end.

(** [s.includes(t)]: [t] occurs in [s] as a contiguous run. *)
Fixpoint includes (s t : jsstring) : bool :=
  startsWith s t ||
  match s with
  | [] => false
  | _ :: s' => includes s' t
  end.

(** [arr.join(sep)]. *)
Fixpoint join (sep : jsstring) (l : list jsstring) : jsstring :=
  match l with
  | [] => []
  | [x] => x
  | x :: l' => x ++ sep ++ join sep l'
  end.

(** [s.split(',')]: the pieces between commas, empty pieces kept; the
    empty string splits into one empty piece. *)
Fixpoint splitCommaFrom (cur : jsstring) (s : jsstring) : list jsstring :=
  match s with
  | [] => [rev cur]
  | c :: s' =>
      if c =? 44 then rev cur :: splitCommaFrom [] s'
      else splitCommaFrom (c :: cur) s'
  end.

Definition splitComma (s : jsstring) : list jsstring := splitCommaFrom [] s.

(** The class [\w] of a regular expression without the unicode flag:
    [A-Za-z0-9_]. *)
Definition isWordUnit (c : N) : bool :=
  ((48 <=? c) && (c <=? 57)) || ((65 <=? c) && (c <=? 90)) || (c =? 95)
  || ((97 <=? c) && (c <=? 122)).

(** [s.split(/\W+/)]: the pieces between maximal runs of non-word code
    units.  A separator run at the very start or end leaves an empty
    piece there, and the empty string splits into one empty piece.
    [cur] is the piece being read (reversed), [insep] says that the
    previous code unit belonged to a separator run. *)
Fixpoint splitNonWordFrom (cur : jsstring) (insep : bool) (s : jsstring)
  : list jsstring :=
  match s with
  | [] => [rev cur]
  | c :: s' =>
      if isWordUnit c then splitNonWordFrom (c :: cur) false s'
      else if insep then splitNonWordFrom [] true s'
      else rev cur :: splitNonWordFrom [] true s'
  end.

Definition splitNonWord (s : jsstring) : list jsstring :=
  splitNonWordFrom [] false s.

(** [arr.includes(x)] on an array of strings. *)
Definition arrayIncludes (l : list jsstring) (x : jsstring) : bool :=
  existsb (streq x) l.

(** [arr.filter(Boolean)] on an array of strings. *)
Definition filterBoolean (l : list jsstring) : list jsstring :=
  List.filter truthy l.

End JS.

Import JS.


(** ** Plain objects used as dictionaries *)

Module Obj.

(** The values the handler stores in [wordCounts]: numbers, and the
    strings that [+ 1] produces from an inherited property. *)
Inductive value :=
  | VNum (n : N)
  | VStr (s : jsstring).

(** Own properties, in creation order. *)
Abbreviation object := (list (jsstring * value)).

(** What [Object.prototype] contributes to the lookup [o[k]] on an
    object literal. *)
Inductive inherited :=
  | NativeFunction (name : jsstring)
  | ProtoAccessor.

Definition nativeNames : list jsstring :=
  [ lit "__defineGetter__"; lit "__defineSetter__"; lit "hasOwnProperty";
    lit "__lookupGetter__"; lit "__lookupSetter__"; lit "isPrototypeOf";
    lit "propertyIsEnumerable"; lit "toString"; lit "valueOf";
    lit "toLocaleString" ].

Definition objectPrototype (k : jsstring) : option inherited :=
  if streq k (lit "constructor") then Some (NativeFunction (lit "Object"))
  else if streq k (lit "__proto__") then Some ProtoAccessor
  else if arrayIncludes nativeNames k then Some (NativeFunction k)
  else None.

Fixpoint getOwn (o : object) (k : jsstring) : option value :=
  match o with
  | [] => None
  | (k', v) :: o' => if streq k' k then Some v else getOwn o' k
  end.

(** The result of [o[k]]. *)
Inductive got :=
  | Undefined
  | Own (v : value)
  | Inherited (p : inherited).

Definition get (o : object) (k : jsstring) : got :=
  match getOwn o k with
  | Some v => Own v
  | None =>
      match objectPrototype k with
      | Some p => Inherited p
      | None => Undefined
      end
  end.

(** [Function.prototype.toString] of a native function. *)
Definition nativeSource (name : jsstring) : jsstring :=
  lit "function " ++ name ++ lit "() { [native code] }".

(** [(x || 0) + 1]: a number is incremented, anything else truthy is
    converted to a string and gets ["1"] appended. *)
Definition orZeroPlusOne (x : got) : value :=
  match x with
  | Undefined => VNum 1
  | Own (VNum n) => VNum (n + 1)
  | Own (VStr s) => if truthy s then VStr (s ++ lit "1") else VNum 1
  | Inherited (NativeFunction name) => VStr (nativeSource name ++ lit "1")
  | Inherited ProtoAccessor => VStr (lit "[object Object]1")
  end.

Fixpoint setOwn (o : object) (k : jsstring) (v : value) : object :=
  match o with
  | [] => [(k, v)]
  | (k', v') :: o' =>
      if streq k' k then (k', v) :: o' else (k', v') :: setOwn o' k v
  end.

(** [o[k] = v] for a primitive [v].  The key [__proto__] reaches the
    inherited setter, which ignores a value that is not an object; every
    other key updates the own property in place or creates it last. *)
Definition set (o : object) (k : jsstring) (v : value) : object :=
  if streq k (lit "__proto__") then o else setOwn o k v.

(** The digits of a decimal numeral, most significant first. *)
Fixpoint parseDigits (acc : N) (s : jsstring) : option N :=
  match s with
  | [] => Some acc
  | c :: s' =>
      if (48 <=? c) && (c <=? 57) then parseDigits (10 * acc + (c - 48)) s'
      else None
  end.

(** A property key that is an array index: the canonical numeral of an
    integer between 0 and 2^32 - 2. *)
Definition arrayIndex (k : jsstring) : option N :=
  match k with
  | [] => None
  | [c] => parseDigits 0 [c]
  | c :: _ =>
      if c =? 48 then None
      else match parseDigits 0 k with
           | Some n => if n <=? 4294967294 then Some n else None
           | None => None
           end
  end.

Definition isArrayIndex (k : jsstring) : bool :=
  match arrayIndex k with Some _ => true | None => false end.

Definition indexOf (k : jsstring) : N :=
  match arrayIndex k with Some n => n | None => 0 end.

(** [arr.sort(cmp)] for a consistent comparator: the sort is stable, so
    the result is the one permutation that is ordered by [cmp] and keeps
    the input order among elements that compare equal.  Insertion from
    the right computes it. *)
Fixpoint insertSorted {A} (cmp : A -> A -> Z) (x : A) (l : list A) : list A :=
  match l with
  | [] => [x]
  | y :: l' =>
      if (cmp x y <=? 0)%Z then x :: y :: l' else y :: insertSorted cmp x l'
  end.

Definition sort {A} (cmp : A -> A -> Z) (l : list A) : list A :=
  fold_right (insertSorted cmp) [] l.

(** Own property keys are enumerated with the array indices first, in
    ascending numeric order, then the other keys in creation order. *)
Definition byIndex {V} (a b : jsstring * V) : Z :=
  (Z.of_N (indexOf (fst a)) - Z.of_N (indexOf (fst b)))%Z.

(** [Object.entries(o)]. *)
Definition entries {V} (o : list (jsstring * V)) : list (jsstring * V) :=
  sort byIndex (List.filter (fun e => isArrayIndex (fst e)) o)
  ++ List.filter (fun e => negb (isArrayIndex (fst e))) o.

(** [ToNumber] of a stored value.  The strings that can be stored all
    begin with the text of an object or native function, which is not a
    numeric literal: they convert to NaN, here [None]. *)
Definition toNumber (v : value) : option N :=
  match v with
  | VNum n => Some n
  | VStr _ => None
  end.

End Obj.

(** ** Paths *)

Module Path.

(** The last component of a path: trailing slashes dropped, then
    everything after the last slash. *)
Fixpoint afterLastSlash (cur : jsstring) (s : jsstring) : jsstring :=
  match s with
  | [] => rev cur
  | c :: s' => if c =? 47 then afterLastSlash [] s' else afterLastSlash (c :: cur) s'
  end.

Fixpoint dropSlashes (s : jsstring) : jsstring :=
  match s with
  | [] => []
  | c :: s' => if c =? 47 then dropSlashes s' else s
  end.

Definition basename (p : jsstring) : jsstring :=
  afterLastSlash [] (rev (dropSlashes (rev p))).

(** Split a component at its last dot: what precedes the dot, and the
    dot with what follows it. *)
Fixpoint splitLastDot (b : jsstring) : option (jsstring * jsstring) :=
  match b with
  | [] => None
  | c :: b' =>
      match splitLastDot b' with
      | Some (pre, ext) => Some (c :: pre, ext)
      | None => if c =? 46 then Some ([], c :: b') else None
      end
  end.

(** [path.extname]: empty when the last component has no dot, starts
    with its only dot, or is [..]. *)
Definition extname (p : jsstring) : jsstring :=
  let b := basename p in
  match splitLastDot b with
  | None => []
  | Some (pre, ext) =>
      if negb (truthy pre) then []
      else if streq b (lit "..") then []
      else ext
  end.

(** [path.parse(p).name]: the last component without its extension. *)
Definition parseName (p : jsstring) : jsstring :=
  let b := basename p in
  match splitLastDot b with
  | None => b
  | Some (pre, ext) =>
      if negb (truthy pre) then b
      else if streq b (lit "..") then b
      else pre
  end.

End Path.

(** ** HTTP responses and thrown errors *)

Module Http.

(** A call that returns or throws; an error carries its [message]. *)
Inductive Outcome (A : Type) :=
  | Thrown (message : option jsstring)
  | Return (a : A).
Arguments Thrown {A} message.
Arguments Return {A} a.

(** What the client receives.
    - [Ok s payload]: [res.status(s).json(payload)];
    - [Fail s error details]: [res.status(s).json({ error, details })],
      the key [details] absent when [None];
    - [Unhandled message]: a middleware passed an error to [next], the
      route handler did not run, and since the application installs no
      error-handling middleware Express's default one answers, with
      status [err.status || 500]. *)
Inductive Response (A : Type) :=
  | Ok (status : nat) (payload : A)
  | Fail (status : nat) (error : jsstring) (details : option jsstring)
  | Unhandled (message : jsstring).
Arguments Ok {A} status payload.
Arguments Fail {A} status error details.
Arguments Unhandled {A} message.

Definition statusOf {A} (r : Response A) : nat :=
  match r with
  | Ok s _ => s
  | Fail s _ _ => s
  | Unhandled _ => 500%nat
  end.

End Http.

Import Http.

(** ** The record store and the upload directory *)

Module UploadRecord.

Record t := mk {
  id : jsstring;
  filename : jsstring;
  url : jsstring;
  thumb_url : option jsstring;
  preview_url : option jsstring;
  place_id : jsstring;
  dish : jsstring;
  uploader_name : jsstring;
  created_at : jsstring
}.

End UploadRecord.

Module Store.

(** The content of [uploads/metadata.json] as [readMetadata] meets it:
    no readable file, an empty file, text that [JSON.parse] rejects, or
    the array of records the server wrote.  The server writes nothing
    but such arrays; a file holding other valid JSON is not modelled. *)
Inductive MetaFile :=
  | NoFile
  | Blank
  | Garbage
  | Records (arr : list UploadRecord.t).

Abbreviation Blob := (list N).

(** The upload directory: the media files by name, and the metadata
    file. *)
Record Disk := mkDisk {
  files : gmap (list N) (list N);
  metadata : MetaFile
}.

(** [fs.readFileSync(META_FILE, 'utf8')] then [JSON.parse(raw || '[]')]. *)
Definition parseMetadata (d : Disk) : Outcome (list UploadRecord.t) :=
  match metadata d with
  | NoFile => Thrown (Some (lit "ENOENT: no such file or directory"))
  | Blank => Return []
  | Garbage => Thrown (Some (lit "Unexpected token in JSON"))
  | Records arr => Return arr
  end.

Definition readMetadata (d : Disk) : list UploadRecord.t :=
  match parseMetadata d with
  | Return arr => arr
  | Thrown _ => []
  end.

Definition writeMetadata (arr : list UploadRecord.t) (d : Disk) : Disk :=
  mkDisk (files d) (Records arr).

(** Writing a media file creates or replaces it. *)
Definition writeFile (name : jsstring) (content : Blob) (d : Disk) : Disk :=
  mkDisk (<[name := content]> (files d)) (metadata d).

(** [fs.unlinkSync] throws when there is no such file. *)
Definition unlinkSync (name : jsstring) (d : Disk) : Outcome Disk :=
  match files d !! name with
  | Some _ => Return (mkDisk (delete name (files d)) (metadata d))
  | None => Thrown (Some (lit "ENOENT: no such file or directory"))
  end.

End Store.

Import Store.

(** ** POST /api/upload *)

Module Upload.

(** The file part of the multipart body. *)
Record FilePart := mkFile {
  originalname : jsstring;
  mimetype : jsstring;
  content : Blob
}.

Record Request := mkRequest {
  photo : option FilePart;
  place_id : option jsstring;
  dish : option jsstring;
  uploader_name : option jsstring
}.

(** What the handler takes from outside the request: the two identifiers
    [uuidv4()] returns (first for the file name, then for the record),
    the clock, and [sharp]: the JPEG it encodes from an image at a given
    width and quality, or [None] when it throws. *)
Record Env := mkEnv {
  fileUuid : jsstring;
  recordUuid : jsstring;
  now : jsstring;
  sharp : Blob -> N -> N -> option Blob
}.

Definition fileFilter (f : FilePart) : bool :=
  startsWith (mimetype f) (lit "image/").

Definition fileSizeLimit : N := 12 * 1024 * 1024.

(** [storage.filename]. *)
Definition storedName (env : Env) (f : FilePart) : jsstring :=
  let ext := Path.extname (originalname f) in
  fileUuid env ++ (if truthy ext then ext else lit ".jpg").

Definition thumbName (original : jsstring) : jsstring :=
  Path.parseName original ++ lit "_thumb.jpg".

Definition previewName (original : jsstring) : jsstring :=
  Path.parseName original ++ lit "_preview.jpg".

(** [generateResizedVariants]: the thumb is written before the preview
    is attempted, so a throw in between leaves the thumb on disk. *)
Definition generateResizedVariants (env : Env) (original : jsstring) (d : Disk)
  : Outcome (jsstring * jsstring) * Disk :=
  match files d !! original with
  | None => (Thrown (Some (lit "Input file is missing")), d)
  | Some img =>
      match sharp env img 400 80 with
      | None => (Thrown (Some (lit "Input file contains unsupported image format")), d)
      | Some thumb =>
          let d1 := writeFile (thumbName original) thumb d in
          match sharp env img 160 75 with
          | None => (Thrown (Some (lit "Input file contains unsupported image format")), d1)
          | Some preview =>
              (Return (thumbName original, previewName original),
               writeFile (previewName original) preview d1)
          end
      end
  end.

Definition uploads (name : jsstring) : jsstring := lit "/uploads/" ++ name.

(** The route handler proper; [file] is [req.file], already on disk. *)
Definition handler (env : Env) (file : option jsstring) (req : Request) (d : Disk)
  : Response UploadRecord.t * Disk :=
  match file with
  | None => (Fail 400 (lit "Missing photo file") None, d)
  | Some name =>
      if falsy (place_id req) then
        match unlinkSync name d with
        | Return d' => (Fail 400 (lit "Missing place_id") None, d')
        | Thrown msg => (Fail 500 (lit "Upload failed") msg, d)
        end
      else
        let '(variants, d1) := generateResizedVariants env name d in
        let '(thumbFilename, previewFilename) :=
          match variants with
          | Return (tfn, pfn) => (Some tfn, Some pfn)
          | Thrown _ => (None, None)
          end in
        let metadata := readMetadata d1 in
        let record :=
          UploadRecord.mk
            (recordUuid env)
            name
            (uploads name)
            (option_map uploads thumbFilename)
            (option_map uploads previewFilename)
            (splice (place_id req))
            (splice (orElse (dish req) (Some [])))
            (splice (orElse (uploader_name req) (Some [])))
            (now env) in
        (Ok 201 record, writeMetadata (metadata ++ [record]) d1)
  end.

(** [upload.single('photo')] followed by the handler.  The filter runs
    before the storage engine is asked to write; a file over the limit
    is removed again by multer; both errors go to [next]. *)
Definition upload (env : Env) (req : Request) (d : Disk)
  : Response UploadRecord.t * Disk :=
  match photo req with
  | None => handler env None req d
  | Some f =>
      if negb (fileFilter f) then
        (Unhandled (lit "Only image files are allowed"), d)
      else if fileSizeLimit <? N.of_nat (length (content f)) then
        (Unhandled (lit "File too large"), d)
      else
        let name := storedName env f in
        handler env (Some name) req (writeFile name (content f) d)
  end.

End Upload.

(** ** The places provider *)

Module Places.

(** A JSON number the handlers only pass on, kept as its text. *)
Abbreviation jsnumber := (list N).

Record LatLng := mkLatLng { lat : jsnumber; lng : jsnumber }.

Record Geometry := mkGeometry { location : option LatLng }.

Record Photo := mkPhoto { photo_reference : option jsstring }.

Record Review := mkReview {
  author_name : option jsstring;
  text : option jsstring;
  rating : option jsnumber;
  relative_time_description : option jsstring;
  author_url : option jsstring;
  (* fields of the provider the handler does not copy *)
  time : option jsnumber
}.

(** One row of a text search, or the [result] of a details call; the
    text search fills neither [photos] nor [reviews]. *)
Record Place := mkPlace {
  place_id : option jsstring;
  name : option jsstring;
  formatted_address : option jsstring;
  geometry : option Geometry;
  types : option (list jsstring);
  photos : option (list Photo);
  reviews : option (list Review)
}.

(** [{}] *)
Definition emptyPlace : Place := mkPlace None None None None None None None.

(** A promise of the HTTP client: the tick of the event loop at which it
    settles, and how. *)
Record Promise (A : Type) := mkPromise {
  settledAt : nat;
  outcome : Outcome A
}.
Arguments mkPromise {A} settledAt outcome.
Arguments settledAt {A} p.
Arguments outcome {A} p.

(** The provider as the handlers see it through [axios.get].
    - [textSearch query]: [data.results] of the text search;
    - [details n place_id fields]: [data.result] of the [n]-th details
      call of the request being served. *)
Record Gateway := mkGateway {
  textSearch : jsstring -> Outcome (option (list Place));
  details : nat -> option jsstring -> jsstring -> Promise (option Place)
}.

Inductive Call :=
  | TextSearchCall (query : jsstring)
  | DetailsCall (n : nat) (place_id : option jsstring).

(** [Promise.all]: rejected with the reason of the promise that rejects
    first, otherwise fulfilled with the values in the order of the
    input. *)
Fixpoint firstRejection {A} (ps : list (Promise A))
  : option (nat * option jsstring) :=
  match ps with
  | [] => None
  | p :: ps' =>
      match outcome p, firstRejection ps' with
      | Thrown e, Some (t, e') =>
          if (settledAt p <=? t)%nat then Some (settledAt p, e) else Some (t, e')
      | Thrown e, None => Some (settledAt p, e)
      | Return _, r => r
      end
  end.

Fixpoint fulfilled {A} (ps : list (Promise A)) : list A :=
  match ps with
  | [] => []
  | p :: ps' =>
      match outcome p with
      | Return a => a :: fulfilled ps'
      | Thrown _ => fulfilled ps'
      end
  end.

Definition promiseAll {A} (ps : list (Promise A)) : Outcome (list A) :=
  match firstRejection ps with
  | Some (_, e) => Thrown e
  | None => Return (fulfilled ps)
  end.

(** [arr.map] with the index of each element. *)
Fixpoint mapFrom {A B} (n : nat) (f : nat -> A -> B) (l : list A) : list B :=
  match l with
  | [] => []
  | a :: l' => f n a :: mapFrom (S n) f l'
  end.

Definition googleMapsUrl (place_id : option jsstring) : jsstring :=
  lit "https://www.google.com/maps/place/?q=place_id:" ++ splice place_id.

Definition photoUrl (p : Photo) (maxwidth : jsstring) : jsstring :=
  lit "/api/photo?photoreference=" ++ splice (photo_reference p)
  ++ lit "&maxwidth=" ++ maxwidth.

End Places.

Import Places.

(** ** GET /api/search *)

Module Search.

Record PlaceSummary := mkSummary {
  place_id : option jsstring;
  name : option jsstring;
  address : option jsstring;
  location : option LatLng;
  types : option (list jsstring);
  thumbnail : option jsstring;
  maps_url : jsstring
}.

Record Body := mkBody {
  query : jsstring;
  results : list PlaceSummary
}.

(** [termsRaw.split(',').map(t => t.trim()).filter(Boolean)] *)
Definition parseTerms (termsRaw : option jsstring) : list jsstring :=
  filterBoolean (List.map trim (splitComma (splice (orElse termsRaw (Some []))))).

Definition quoteTerm (t : jsstring) : jsstring :=
  if includes t (lit " ") then [34] ++ t ++ [34] else t.

Definition buildQuery (terms : list jsstring) : jsstring :=
  join (lit " OR ") (List.map quoteTerm terms) ++ lit " restaurants in Hong Kong".

Definition searchFields : jsstring :=
  lit "name,geometry,formatted_address,photos,place_id,types,opening_hours".

(** [x?.location] *)
Definition locationOf (g : option Geometry) : option LatLng :=
  match g with
  | Some g => Places.location g
  | None => None
  end.

(** [a || b] for values that are undefined or an object. *)
Definition orObject {A} (a b : option A) : option A :=
  match a with
  | Some x => Some x
  | None => b
  end.

(** [metadata.find(m => m.place_id === id && m.thumb_url)] *)
Definition findUserThumb (metadata : list UploadRecord.t) (id : option jsstring)
  : option UploadRecord.t :=
  List.find
    (fun m =>
       match id with
       | Some s => streq (UploadRecord.place_id m) s
       | None => false
       end
       && match UploadRecord.thumb_url m with
          | Some u => truthy u
          | None => false
          end)
    metadata.

(** The body of the callback of [limited.map] after its [await]. *)
Definition summarize (d : Disk) (p : Place) (result : option Place) : PlaceSummary :=
  let details := match result with Some r => r | None => emptyPlace end in
  let id := orElse (Places.place_id details) (Places.place_id p) in
  let thumbnail :=
    match Places.photos details with
    | Some (ph :: _) => Some (photoUrl ph (lit "400"))
    | _ =>
        match findUserThumb (readMetadata d) id with
        | Some userForPlace => UploadRecord.thumb_url userForPlace
        | None => None
        end
    end in
  mkSummary
    id
    (orElse (Places.name details) (Places.name p))
    (orElse (Places.formatted_address details) (Places.formatted_address p))
    (orObject (locationOf (Places.geometry details)) (locationOf (Places.geometry p)))
    (orObject (Places.types details) (Places.types p))
    thumbnail
    (googleMapsUrl id).

(** One element of [detailsPromises]: the request leaves when the
    callback is called, the rest runs when the answer is in. *)
Definition detailsPromise (gw : Gateway) (d : Disk) (n : nat) (p : Place)
  : Promise PlaceSummary :=
  let pr := details gw n (Places.place_id p) searchFields in
  mkPromise (settledAt pr)
    match outcome pr with
    | Return result => Return (summarize d p result)
    | Thrown e => Thrown e
    end.

(** The handler: the response, and the provider calls it issued. *)
Definition search (gw : Gateway) (d : Disk) (termsRaw : option jsstring)
  : Response Body * list Call :=
  let terms := parseTerms termsRaw in
  match terms with
  | [] => (Fail 400 (lit "Missing terms parameter") None, [])
  | _ :: _ =>
      let query := buildQuery terms in
      match textSearch gw query with
      | Thrown e => (Fail 500 (lit "Search failed") e, [TextSearchCall query])
      | Return data =>
          let places := match data with Some l => l | None => [] end in
          let limited := firstn 20 places in
          let detailsPromises := mapFrom 0 (detailsPromise gw d) limited in
          let calls :=
            TextSearchCall query
            :: mapFrom 0 (fun n p => DetailsCall n (Places.place_id p)) limited in
          match promiseAll detailsPromises with
          | Return results => (Ok 200 (mkBody query results), calls)
          | Thrown e => (Fail 500 (lit "Search failed") e, calls)
          end
      end
  end.

Definition resultsOf (r : Response Body) : list PlaceSummary :=
  match r with
  | Ok _ body => results body
  | _ => []
  end.

(** [req.query.terms] as Express hands it over: absent, a string, or,
    for a repeated or bracketed parameter, an array or an object. *)
Inductive QueryValue :=
  | Absent
  | Text (s : jsstring)
  | Structured.

(** The handler on any value of the parameter: an array or object is
    truthy and has no [split], so the first line of the [try] throws and
    the [catch] answers. *)
(** The text of a parameter that is a string. *)
Definition textOf (terms : QueryValue) : option jsstring :=
  match terms with
  | Text s => Some s
  | Absent | Structured => None
  end.

Definition route (gw : Gateway) (d : Disk) (terms : QueryValue)
  : Response Body * list Call :=
  match terms with
  | Absent => search gw d None
  | Text s => search gw d (Some s)
  | Structured =>
      (Fail 500 (lit "Search failed") (Some (lit "termsRaw.split is not a function")),
       [])
  end.

End Search.

(** ** GET /api/place *)

Module Place.

Record PhotoLink := mkPhotoLink {
  photo_reference : option jsstring;
  url : jsstring
}.

Record Review := mkReview {
  author_name : option jsstring;
  text : option jsstring;
  rating : option jsnumber;
  relative_time_description : option jsstring;
  author_url : option jsstring
}.

Record UserPhoto := mkUserPhoto {
  id : jsstring;
  photo_url : jsstring;
  thumb_url : option jsstring;
  preview_url : option jsstring;
  dish : jsstring;
  uploader_name : jsstring;
  created_at : jsstring
}.

(** The JSON body.  [dishCandidates] is [None] when the comparator of
    the sort meets a count that is not a number: its result is then NaN,
    the comparator is not consistent, and ECMAScript leaves the order to
    the engine. *)
Record Body := mkBody {
  place_id : option jsstring;
  name : option jsstring;
  address : option jsstring;
  location : option LatLng;
  photos : list PhotoLink;
  reviews : list Review;
  reviewsWithTerms : list Review;
  dishCandidates : option (list jsstring);
  maps_url : jsstring;
  userPhotos : list UserPhoto
}.

(** [termsRaw.split(',').map(t => t.trim().toLowerCase()).filter(Boolean)] *)
Definition parseTerms {table : CaseTable} (termsRaw : option jsstring)
  : list jsstring :=
  filterBoolean
    (List.map (fun t => toLowerCase (trim t))
       (splitComma (splice (orElse termsRaw (Some []))))).

Definition placeFields : jsstring :=
  lit "name,geometry,formatted_address,photos,place_id,review,reviews".

Definition projectReview (r : Places.Review) : Review :=
  mkReview (Places.author_name r) (Places.text r) (Places.rating r)
    (Places.relative_time_description r) (Places.author_url r).

(** [r.text || ''] *)
Definition textOf (r : Review) : jsstring := splice (orElse (text r) (Some [])).

(** [terms.some(t => s.includes(t))] *)
Definition someIncluded (terms : list jsstring) (s : jsstring) : bool :=
  existsb (fun t => includes s t) terms.

Definition matchesTerms {table : CaseTable} (terms : list jsstring) (r : Review)
  : bool :=
  let text := toLowerCase (textOf r) in
  match terms with
  | [] => false
  | _ :: _ => someIncluded terms text
  end.

Definition stopWords : list jsstring :=
  [ lit "the"; lit "and"; lit "of"; lit "a"; lit "is"; lit "in"; lit "to";
    lit "with"; lit "on" ].

(** The body of the [forEach] over the words. *)
Definition countWord (wordCounts : Obj.object) (w : jsstring) : Obj.object :=
  if (length w <=? 1)%nat then wordCounts
  else if arrayIncludes stopWords w then wordCounts
  else Obj.set wordCounts w (Obj.orZeroPlusOne (Obj.get wordCounts w)).

Definition allReviewText {table : CaseTable} (reviews : list Review) : jsstring :=
  toLowerCase (join (lit " ") (List.map textOf reviews)).

Definition wordCounts {table : CaseTable} (reviews : list Review) : Obj.object :=
  fold_left countWord (splitNonWord (allReviewText reviews)) [].

(** [(a, b) => b[1] - a[1]] on entries whose counts are numbers. *)
Definition byCount (a b : jsstring * N) : Z :=
  (Z.of_N (snd b) - Z.of_N (snd a))%Z.

(** The counts as numbers, or [None] if one of them is not. *)
Fixpoint numeric (es : list (jsstring * Obj.value)) : option (list (jsstring * N)) :=
  match es with
  | [] => Some []
  | (k, v) :: es' =>
      match Obj.toNumber v, numeric es' with
      | Some n, Some l => Some ((k, n) :: l)
      | _, _ => None
      end
  end.

Definition candidates {table : CaseTable} (reviews : list Review)
  : option (list jsstring) :=
  match numeric (Obj.entries (wordCounts reviews)) with
  | Some es => Some (List.map fst (firstn 10 (Obj.sort byCount es)))
  | None => None
  end.

Definition matchesDish {table : CaseTable} (terms : list jsstring)
    (m : UploadRecord.t) : bool :=
  match terms with
  | [] => true
  | _ :: _ =>
      let dishLabel :=
        toLowerCase (splice (orElse (Some (UploadRecord.dish m)) (Some []))) in
      someIncluded terms dishLabel
  end.

Definition projectUpload (m : UploadRecord.t) : UserPhoto :=
  mkUserPhoto (UploadRecord.id m) (UploadRecord.url m) (UploadRecord.thumb_url m)
    (UploadRecord.preview_url m) (UploadRecord.dish m)
    (UploadRecord.uploader_name m) (UploadRecord.created_at m).

Definition userPhotosOf {table : CaseTable} (d : Disk) (place_id : jsstring)
    (terms : list jsstring) : list UserPhoto :=
  List.map projectUpload
    (List.filter (matchesDish terms)
       (List.filter (fun m => streq (UploadRecord.place_id m) place_id)
          (readMetadata d))).

Definition place {table : CaseTable} (gw : Gateway) (d : Disk)
    (place_id termsRaw : option jsstring) : Response Body :=
  let terms := parseTerms termsRaw in
  if falsy place_id then Fail 400 (lit "Missing place_id") None
  else
    match outcome (details gw 0 place_id placeFields) with
    | Thrown e => Fail 500 (lit "Place fetch failed") e
    | Return result =>
        let place := match result with Some r => r | None => emptyPlace end in
        let photos :=
          List.map (fun p => mkPhotoLink (Places.photo_reference p) (photoUrl p (lit "800")))
            (match Places.photos place with Some l => l | None => [] end) in
        let reviews :=
          List.map projectReview
            (match Places.reviews place with Some l => l | None => [] end) in
        let reviewsWithTerms := List.filter (matchesTerms terms) reviews in
        Ok 200
          (mkBody
             (Places.place_id place)
             (Places.name place)
             (Places.formatted_address place)
             (Search.locationOf (Places.geometry place))
             photos
             reviews
             reviewsWithTerms
             (candidates reviews)
             (googleMapsUrl (Places.place_id place))
             (userPhotosOf d (splice place_id) terms))
    end.

End Place.

(** ** The browser client *)

Module Client.

(** [onSubmit]: the text of the search box, cleaned. *)
Definition cleaned (query : jsstring) : jsstring :=
  join (lit ",") (filterBoolean (List.map trim (splitComma query))).

(** [onSubmit] then [doSearch]: the [terms] parameter of the request
    that is sent, or [None] when [doSearch] returns without sending. *)
Definition onSubmit (query : jsstring) : option jsstring :=
  let q := cleaned query in
  if truthy q then Some q else None.

(** [handleUpload]: the form that is posted, or [None] when no file is
    chosen.  [FormData.append] turns a missing [place_id] into the word
    [undefined]; the two text inputs are sent only when filled in. *)
Definition handleUpload (place : Search.PlaceSummary)
    (file : option Upload.FilePart) (dishInput uploaderInput : jsstring)
  : option Upload.Request :=
  match file with
  | None => None
  | Some f =>
      Some (Upload.mkRequest (Some f)
              (Some (splice (Search.place_id place)))
              (if truthy dishInput then Some dishInput else None)
              (if truthy uploaderInput then Some uploaderInput else None))
  end.

Definition HK_CENTER : jsnumber * jsnumber := (lit "22.3193", lit "114.1694").

(** [firstCoords] of [MapView]: reading [lat] of a missing [location]
    throws. *)
Definition firstCoords (places : list Search.PlaceSummary)
  : Outcome (jsnumber * jsnumber) :=
  match places with
  | [] => Return HK_CENTER
  | p :: _ =>
      match Search.location p with
      | Some l => Return (lat l, lng l)
      | None =>
          Thrown (Some (lit "Cannot read properties of undefined (reading 'lat')"))
      end
  end.

(** The places that get a marker: [p.location && <Marker .../>]. *)
Definition markers (places : list Search.PlaceSummary) : list Search.PlaceSummary :=
  List.filter
    (fun p => match Search.location p with Some _ => true | None => false end)
    places.

End Client.

(** ** Well-formed records *)

Module Invariants.

(** What every record written by the upload handler satisfies: a
    place, a [url] that points at its file, and a thumb exactly when it
    has a preview. *)
Definition wellFormed (m : UploadRecord.t) : bool :=
  truthy (UploadRecord.place_id m)
  && streq (UploadRecord.url m) (lit "/uploads/" ++ UploadRecord.filename m)
  && match UploadRecord.thumb_url m, UploadRecord.preview_url m with
     | Some _, Some _ => true
     | None, None => true
     | _, _ => false
     end.

(** The five ways an upload can go. *)
Inductive UploadCase (env : Upload.Env) (req : Upload.Request) (d : Disk)
  : Response UploadRecord.t * Disk -> Prop :=
  | NoPhoto :
      Upload.photo req = None ->
      UploadCase env req d (Fail 400 (lit "Missing photo file") None, d)
  | NotAnImage f :
      Upload.photo req = Some f -> Upload.fileFilter f = false ->
      UploadCase env req d (Unhandled (lit "Only image files are allowed"), d)
  | TooLarge f :
      Upload.photo req = Some f -> Upload.fileFilter f = true ->
      Upload.fileSizeLimit < N.of_nat (length (Upload.content f)) ->
      UploadCase env req d (Unhandled (lit "File too large"), d)
  | NoPlace f :
      Upload.photo req = Some f -> Upload.fileFilter f = true ->
      N.of_nat (length (Upload.content f)) <= Upload.fileSizeLimit ->
      falsy (Upload.place_id req) = true ->
      UploadCase env req d
        (Fail 400 (lit "Missing place_id") None,
         mkDisk (delete (Upload.storedName env f) (files d)) (metadata d))
  | Created f :
      Upload.photo req = Some f -> Upload.fileFilter f = true ->
      N.of_nat (length (Upload.content f)) <= Upload.fileSizeLimit ->
      falsy (Upload.place_id req) = false ->
      UploadCase env req d
        (Upload.handler env (Some (Upload.storedName env f)) req
           (writeFile (Upload.storedName env f) (Upload.content f) d)).

(** A generated identifier usable as a file stem: not empty, without a
    dot or a slash. *)
Definition stem (uuid : jsstring) : bool :=
  truthy uuid && forallb (fun c => negb ((c =? 46) || (c =? 47))) uuid.

(** A record that can serve as the thumbnail of place [id]. *)
Definition thumbFor (id : option jsstring) (m : UploadRecord.t) : Prop :=
  Some (UploadRecord.place_id m) = id
  /\ exists u, UploadRecord.thumb_url m = Some u /\ u <> [].

End Invariants.

(** ** The specification's vocabulary *)

Module Spec.

(** [t] occurs in [s] as a substring. *)
Definition Contains (s t : jsstring) : Prop :=
  exists pre post, s = pre ++ t ++ post.

(** The term list of a request: the comma-separated pieces of the
    [terms] parameter, trimmed, the empty ones dropped. *)
Definition termList (termsRaw : option jsstring) : list jsstring :=
  List.filter (fun t => negb (streq t []))
    (List.map trim (splitComma (match termsRaw with Some s => s | None => [] end))).

(** A lower-cased string contains at least one lower-cased term. *)
Definition MatchesSomeTerm {table : CaseTable} (terms : list jsstring)
    (s : jsstring) : Prop :=
  exists t, In t terms /\ Contains (toLowerCase s) (toLowerCase t).

Definition dquote : jsstring := [34].

(** The query as the specification words it: every term that contains
    whitespace is quoted. *)
Definition quoteIfWhitespace (t : jsstring) : jsstring :=
  if existsb isWhiteSpace t then dquote ++ t ++ dquote else t.

Definition queryFor (terms : list jsstring) : jsstring :=
  join (lit " OR ") (List.map quoteIfWhitespace terms)
  ++ lit " restaurants in Hong Kong".

(** The distinct elements of a list in the order of their first
    occurrence. *)
Definition firstSeen (l : list jsstring) : list jsstring :=
  fold_left (fun seen x => if arrayIncludes seen x then seen else seen ++ [x]) l [].

(** The number of occurrences of [k]. *)
Definition occurrences (l : list jsstring) (k : jsstring) : N :=
  N.of_nat (length (List.filter (streq k) l)).

(** The stop words of the specification. *)
Definition stopWords : list jsstring :=
  [ lit "the"; lit "and"; lit "of"; lit "a"; lit "is"; lit "in"; lit "to";
    lit "with"; lit "on" ].

(** All review text, concatenated with a space in between and
    lower-cased; a review without text contributes the empty string. *)
Definition reviewText {table : CaseTable} (reviews : list Place.Review) : jsstring :=
  toLowerCase
    (join (lit " ")
       (List.map (fun r => match Place.text r with Some s => s | None => [] end)
          reviews)).

(** A word character: a letter a-z or A-Z, a digit or the underscore. *)
Definition wordChar (c : N) : bool :=
  ((97 <=? c) && (c <=? 122)) || ((65 <=? c) && (c <=? 90))
  || ((48 <=? c) && (c <=? 57)) || (c =? 95).

(** The text cut at every non-word character: the pieces in between,
    empty where two non-word characters meet. *)
Definition cutAt (c : N) (pieces : list jsstring) : list jsstring :=
  if wordChar c then
    match pieces with
    | w :: rest => (c :: w) :: rest
    | [] => [[c]]
    end
  else [] :: pieces.

Definition pieces (text : jsstring) : list jsstring :=
  fold_right cutAt [[]] text.

(** The words that are counted: longer than one code unit and not a
    stop word. *)
Definition counted (w : jsstring) : bool :=
  (1 <? length w)%nat && negb (existsb (streq w) stopWords).

Definition countedWords {table : CaseTable} (reviews : list Place.Review)
  : list jsstring :=
  List.filter counted (pieces (reviewText reviews)).

(** Ranking by descending count; of two entries of equal count the one
    that comes first stays first. *)
Fixpoint rankInsert (e : jsstring * N) (ranked : list (jsstring * N))
  : list (jsstring * N) :=
  match ranked with
  | [] => [e]
  | x :: rest => if snd x <=? snd e then e :: ranked else x :: rankInsert e rest
  end.

Definition rank (counts : list (jsstring * N)) : list (jsstring * N) :=
  fold_right rankInsert [] counts.

(** Keyword extraction as the specification words it: frequencies,
    sorted descending by count, ties in first-seen order, first ten
    keys. *)
Definition dishCandidates {table : CaseTable} (reviews : list Place.Review)
  : list jsstring :=
  let words := countedWords reviews in
  let counts := List.map (fun k => (k, occurrences words k)) (firstSeen words) in
  List.map fst (firstn 10 (rank counts)).

(** The keys a plain object enumerates after the array indices. *)
Definition namedKey (k : jsstring) : bool := negb (Obj.isArrayIndex k).

Definition withCount (words : list jsstring) (k : jsstring) : jsstring * N :=
  (k, occurrences words k).

(** One counting step on a word that is counted. *)
Definition bump (o : Obj.object) (w : jsstring) : Obj.object :=
  Obj.set o w (Obj.orZeroPlusOne (Obj.get o w)).

(** The object after the counted words [ws] when all goes well: one
    numeric entry per distinct word, in first-seen order. *)
Definition tally (ws : list jsstring) : Obj.object :=
  List.map (fun k => (k, Obj.VNum (occurrences ws k))) (firstSeen ws).

(** No code unit of [w] is one of A-Z. *)
Definition noUpper (w : jsstring) : bool :=
  forallb (fun c => negb ((65 <=? c) && (c <=? 90))) w.

End Spec.

(** ** Sample data *)

Module Sample.

(** The case tables restricted to ASCII, enough for the sample texts. *)
Definition ascii : CaseTable := asciiLower.

Definition emptyDisk : Disk := mkDisk ∅ (Records []).

Definition review (s : string) : Places.Review :=
  Places.mkReview (Some (lit "A diner")) (Some (lit s)) (Some (lit "5")) None None None.

Definition candidate (id : string) : Places.Place :=
  mkPlace (Some (lit id)) (Some (lit id)) None None None None None.

(** A provider that answers the text search with [found] and the
    [n]-th details call at tick [n] as [answer n] says. *)
Definition provider (found : list Places.Place)
    (answer : nat -> Outcome (option Places.Place)) : Gateway :=
  mkGateway (fun _ => Return (Some found))
            (fun n _ _ => mkPromise n (answer n)).

Definition withReviews (rs : list Places.Review) : option Places.Place :=
  Some (mkPlace (Some (lit "p1")) (Some (lit "Mak's")) None None None None (Some rs)).

Definition stored (id place dish : string) : UploadRecord.t :=
  UploadRecord.mk (lit id) (lit id ++ lit ".jpg") (lit "/uploads/" ++ lit id ++ lit ".jpg")
    None None (lit place) (lit dish) [] (lit "2024-01-01T00:00:00.000Z").

Definition image : Upload.FilePart :=
  Upload.mkFile (lit "wonton.png") (lit "image/png") [137; 80; 78; 71].

Definition textFile : Upload.FilePart :=
  Upload.mkFile (lit "notes.txt") (lit "text/plain") [104; 105].

Definition env (works : bool) : Upload.Env :=
  Upload.mkEnv (lit "0a1b") (lit "2c3d") (lit "2024-01-01T00:00:00.000Z")
    (fun img _ _ => if works then Some img else None).

Definition said (s : string) : Place.Review := Place.projectReview (review s).

Definition tabTerm : jsstring := lit "beef" ++ [9] ++ lit "brisket".

Definition fiveCandidates : list Places.Place :=
  [candidate "c1"; candidate "c2"; candidate "c3"; candidate "c4"; candidate "c5"].

(** The third details call is refused, the others answer. *)
Definition thirdFails (n : nat) : Outcome (option Places.Place) :=
  if (n =? 2)%nat then Thrown (Some (lit "Request failed with status code 503"))
  else Return None.

Definition manyCandidates : list Places.Place :=
  List.map (fun _ => candidate "c") (seq 0 25).

End Sample.

Example split_comma_kept_empty :
  splitComma (lit "a,,b,") = [lit "a"; []; lit "b"; []].
Proof. reflexivity. Qed.

Example extname_cases :
  Path.extname (lit "photo.png") = lit ".png" /\
  Path.extname (lit "photo") = [] /\
  Path.extname (lit ".bashrc") = [] /\
  Path.extname (lit "a.b.c") = lit ".c" /\
  Path.extname (lit "a..") = lit "." /\
  Path.extname (lit "..") = [] /\
  Path.parseName (lit "ab12.jpeg") = lit "ab12".
Proof. repeat split; reflexivity. Qed.

Example entries_order :
  Obj.entries [(lit "noodles", 1); (lit "20", 1); (lit "007", 1); (lit "3", 1)]
  = [(lit "3", 1); (lit "20", 1); (lit "noodles", 1); (lit "007", 1)].
Proof. reflexivity. Qed.

(** * Properties *)

(** ** Strings *)

Section Strings.

Implicit Types s t p : list N.

Lemma startsWith_iff s p :
  startsWith s p = true <-> exists post, s = p ++ post.
Proof.
  revert s. induction p as [|a p IH]; intros s; simpl.
  - split; [intros _; now exists s | reflexivity].
  - destruct s as [|b s].
    + split; [discriminate | intros [post H]; discriminate].
    + rewrite andb_true_iff, N.eqb_eq, IH. split.
      * intros [-> [post ->]]. eauto.
      * intros [post H]. injection H as -> ->. eauto.
Qed.

Lemma includes_iff s t : includes s t = true <-> Spec.Contains s t.
Proof.
  unfold Spec.Contains. induction s as [|c s IH].
  - simpl. rewrite orb_false_r, startsWith_iff. split.
    + intros [post H]. exists [], post. exact H.
    + intros [pre [post H]]. destruct pre; [eauto | discriminate].
  - cbn [includes]. rewrite orb_true_iff, IH, startsWith_iff. split.
    + intros [[post H] | [pre [post H]]].
      * exists [], post. exact H.
      * exists (c :: pre), post. simpl. now rewrite H.
    + intros [pre [post H]]. destruct pre as [|c' pre].
      * left. exists post. exact H.
      * right. injection H as _ H. eauto.
Qed.

Lemma includes_unit s c : includes s [c] = true <-> In c s.
Proof.
  rewrite includes_iff. split.
  - intros [pre [post ->]]. apply in_or_app. right. now left.
  - intros H. apply in_split in H as [pre [post ->]]. now exists pre, post.
Qed.

Lemma truthy_iff s : truthy s = negb (streq s []).
Proof. now destruct s. Qed.

Lemma streq_iff s t : streq s t = true <-> s = t.
Proof. unfold streq. apply bool_decide_eq_true. Qed.

Lemma streq_refl s : streq s s = true.
Proof. now apply streq_iff. Qed.

Lemma streq_false_iff s t : streq s t = false <-> s <> t.
Proof. unfold streq. apply bool_decide_eq_false. Qed.

End Strings.

(** ** Term lists *)

Lemma search_terms_are_term_list raw :
  Search.parseTerms raw = Spec.termList raw.
Proof.
  unfold Search.parseTerms, Spec.termList, filterBoolean.
  replace (splice (orElse raw (Some []))) with (match raw with Some s => s | None => [] end)
    by (destruct raw as [[|c s]|]; reflexivity).
  apply filter_ext. intros t. apply truthy_iff.
Qed.

(** The sample tables are lawful. *)
Lemma asciiLower_truthy s : truthy (asciiLower s) = truthy s.
Proof. now destruct s. Qed.

Lemma asciiLower_no_capital s c :
  In c (asciiLower s) -> negb ((65 <=? c) && (c <=? 90)) = true.
Proof.
  unfold asciiLower. intros H. apply in_map_iff in H as [x [<- _]].
  unfold lowerUnit.
  destruct (65 <=? x) eqn:E1; destruct (x <=? 90) eqn:E2; simpl;
    rewrite ?E1, ?E2; simpl; try reflexivity.
  apply N.leb_le in E1, E2. apply negb_true_iff, andb_false_iff. right.
  apply N.leb_gt. lia.
Qed.

Lemma ascii_lawful : LowerCases Sample.ascii.
Proof.
  split.
  - exact asciiLower_truthy.
  - exact asciiLower_no_capital.
  - reflexivity.
Qed.

Lemma place_terms_are_lowered {table : CaseTable} {lawful : LowerCases table} raw :
  Place.parseTerms raw = List.map toLowerCase (Spec.termList raw).
Proof.
  rewrite <- search_terms_are_term_list.
  unfold Place.parseTerms, Search.parseTerms, filterBoolean.
  induction (splitComma (splice (orElse raw (Some [])))) as [|t l IH]; simpl.
  - reflexivity.
  - rewrite lower_truthy. destruct (truthy (trim t)); simpl; now rewrite IH.
Qed.

Lemma someIncluded_lowered {table : CaseTable} terms x :
  Place.someIncluded (List.map toLowerCase terms) (toLowerCase x) = true
  <-> Spec.MatchesSomeTerm terms x.
Proof.
  unfold Place.someIncluded, Spec.MatchesSomeTerm.
  rewrite existsb_exists. split.
  - intros [t' [Hin Hinc]]. apply in_map_iff in Hin as [t [<- Hin]].
    exists t. split; [assumption | now apply includes_iff].
  - intros [t [Hin Hc]]. exists (toLowerCase t). split.
    + now apply in_map.
    + now apply includes_iff.
Qed.

(** ** GET /api/place: the shape of a successful answer *)

Lemma place_ok {table : CaseTable} gw d pid raw status body :
  Place.place gw d pid raw = Ok status body ->
  exists id result,
    pid = Some id /\ truthy id = true /\
    outcome (details gw 0 pid Place.placeFields) = Return result /\
    status = 200%nat /\
    Place.reviews body =
      List.map Place.projectReview
        (match Places.reviews (match result with Some r => r | None => emptyPlace end) with
         | Some l => l | None => [] end) /\
    Place.reviewsWithTerms body =
      List.filter (Place.matchesTerms (Place.parseTerms raw)) (Place.reviews body) /\
    Place.dishCandidates body = Place.candidates (Place.reviews body) /\
    Place.userPhotos body = Place.userPhotosOf d id (Place.parseTerms raw).
Proof.
  unfold Place.place. intros H.
  destruct pid as [[|c id]|]; simpl in H; try discriminate.
  destruct (outcome _) as [e|result] eqn:Hout; [discriminate|].
  injection H as <- <-. exists (c :: id), result. simpl. repeat split.
Qed.

Lemma matchesTerms_iff {table : CaseTable} terms r :
  Place.matchesTerms (List.map toLowerCase terms) r = true
  <-> Spec.MatchesSomeTerm terms (Place.textOf r).
Proof.
  destruct terms as [|t terms].
  - simpl. split; [discriminate | intros [t [[] _]]].
  - rewrite <- someIncluded_lowered. reflexivity.
Qed.

(** C3.  In every answer of the place detail operation,
    [reviewsWithTerms] is a subset of [reviews], it is empty when the
    term list is empty, and a review belongs to it exactly when its
    lower-cased text contains at least one lower-cased term as a
    substring. *)
Theorem reviewsWithTerms_matches_terms {table : CaseTable}
    {lawful : LowerCases table} gw d pid raw status body :
  Place.place gw d pid raw = Ok status body ->
  incl (Place.reviewsWithTerms body) (Place.reviews body)
  /\ (Spec.termList raw = [] -> Place.reviewsWithTerms body = [])
  /\ (forall r,
        In r (Place.reviewsWithTerms body)
        <-> In r (Place.reviews body)
            /\ Spec.MatchesSomeTerm (Spec.termList raw) (Place.textOf r)).
Proof.
  intros H. apply place_ok in H as (id & result & _ & _ & _ & _ & _ & Hw & _).
  rewrite Hw, place_terms_are_lowered. clear Hw. split; [|split].
  - intros r Hr. now apply filter_In in Hr.
  - intros ->. simpl. induction (Place.reviews body); simpl; auto.
  - intros r. rewrite filter_In, matchesTerms_iff. reflexivity.
Qed.

Lemma reviewsWithTerms_matches_terms_witness :
  let gw := Sample.provider []
              (fun _ => Return (Sample.withReviews
                 [Sample.review "Best Wonton in town"; Sample.review "Too salty"])) in
  let raw := Some (lit " wonton , beef brisket") in
  exists body,
    Place.place (table := Sample.ascii) gw Sample.emptyDisk (Some (lit "p1")) raw
      = Ok 200 body
    /\ List.map Place.text (Place.reviewsWithTerms body)
       = [Some (lit "Best Wonton in town")]
    /\ incl (Place.reviewsWithTerms body) (Place.reviews body).
Proof.
  intros gw raw. eexists. split; [reflexivity|]. split; [reflexivity|].
  eapply (reviewsWithTerms_matches_terms (lawful := ascii_lawful)
            gw Sample.emptyDisk (Some (lit "p1")) raw).
  reflexivity.
Defined.

Lemma filter_filter {A} (f g : A -> bool) l :
  List.filter f (List.filter g l) = List.filter (fun x => g x && f x) l.
Proof.
  induction l as [|x l IH]; simpl; [reflexivity|].
  destruct (g x); simpl; [destruct (f x)|]; now rewrite IH.
Qed.

Lemma filter_all {A} (f : A -> bool) l :
  (forall x, In x l -> f x = true) -> List.filter f l = l.
Proof.
  induction l as [|x l IH]; simpl; intros H; [reflexivity|].
  rewrite (H x) by now left. f_equal. apply IH. intros y Hy. apply H. now right.
Qed.

Lemma matchesDish_iff {table : CaseTable} terms m :
  Place.matchesDish (List.map toLowerCase terms) m = true
  <-> terms = [] \/ Spec.MatchesSomeTerm terms (UploadRecord.dish m).
Proof.
  destruct terms as [|t terms].
  - simpl. split; auto.
  - cbn [List.map Place.matchesDish].
    replace (splice (orElse (Some (UploadRecord.dish m)) (Some [])))
      with (UploadRecord.dish m) by (now destruct (UploadRecord.dish m)).
    change (toLowerCase t :: List.map toLowerCase terms)
      with (List.map toLowerCase (t :: terms)).
    rewrite someIncluded_lowered. split; [auto | intros [?|?]; [discriminate | assumption]].
Qed.

(** C9.  In every answer of the place detail operation, [userPhotos]
    lists, in store order, exactly the entries of the record store whose
    [place_id] is the requested one and whose lower-cased [dish]
    contains at least one lower-cased term; with an empty term list
    every entry of the place passes. *)
Theorem userPhotos_of_place_and_terms {table : CaseTable}
    {lawful : LowerCases table} gw d pid raw status body :
  Place.place gw d pid raw = Ok status body ->
  exists id keep,
    pid = Some id
    /\ Place.userPhotos body
       = List.map Place.projectUpload (List.filter keep (readMetadata d))
    /\ (forall m,
          keep m = true
          <-> UploadRecord.place_id m = id
              /\ (Spec.termList raw = []
                  \/ Spec.MatchesSomeTerm (Spec.termList raw) (UploadRecord.dish m)))
    /\ (Spec.termList raw = [] ->
        Place.userPhotos body
        = List.map Place.projectUpload
            (List.filter (fun m => streq (UploadRecord.place_id m) id) (readMetadata d))).
Proof.
  intros H. apply place_ok in H as (id & result & -> & _ & _ & _ & _ & _ & _ & Hu).
  exists id.
  exists (fun m => streq (UploadRecord.place_id m) id
                   && Place.matchesDish (Place.parseTerms raw) m).
  split; [reflexivity|]. split; [|split].
  - rewrite Hu. unfold Place.userPhotosOf. now rewrite filter_filter.
  - intros m. rewrite andb_true_iff, streq_iff, place_terms_are_lowered, matchesDish_iff.
    reflexivity.
  - intros Hnil. rewrite Hu. unfold Place.userPhotosOf.
    rewrite place_terms_are_lowered, Hnil. f_equal.
    apply filter_all. intros m _. reflexivity.
Qed.

Lemma userPhotos_of_place_and_terms_witness :
  let gw := Sample.provider [] (fun _ => Return (Sample.withReviews [])) in
  let d := mkDisk ∅ (Records [Sample.stored "u1" "p1" "Wonton noodles";
                              Sample.stored "u2" "p2" "Wonton";
                              Sample.stored "u3" "p1" "Congee"]) in
  exists body,
    Place.place (table := Sample.ascii) gw d (Some (lit "p1")) (Some (lit "WONTON"))
      = Ok 200 body
    /\ List.map Place.id (Place.userPhotos body) = [lit "u1"]
    /\ exists id keep,
         Some (lit "p1") = Some id
         /\ Place.userPhotos body
            = List.map Place.projectUpload (List.filter keep (readMetadata d))
         /\ (forall m,
               keep m = true
               <-> UploadRecord.place_id m = id
                   /\ (Spec.termList (Some (lit "WONTON")) = []
                       \/ Spec.MatchesSomeTerm (table := Sample.ascii)
                            (Spec.termList (Some (lit "WONTON")))
                            (UploadRecord.dish m)))
         /\ (Spec.termList (Some (lit "WONTON")) = [] ->
             Place.userPhotos body
             = List.map Place.projectUpload
                 (List.filter (fun m => streq (UploadRecord.place_id m) id) (readMetadata d))).
Proof.
  intros gw d. eexists. split; [reflexivity|]. split; [reflexivity|].
  eapply (userPhotos_of_place_and_terms (lawful := ascii_lawful)
            gw d (Some (lit "p1")) (Some (lit "WONTON"))).
  reflexivity.
Defined.

(** ** GET /api/search *)

Section PromiseAll.

Context {A B : Type}.

Lemma nth_mapFrom (f : nat -> A -> B) l k i :
  nth_error (mapFrom k f l) i = option_map (f (k + i)%nat) (nth_error l i).
Proof.
  revert k i. induction l as [|a l IH]; intros k [|i]; simpl; try reflexivity.
  - now rewrite Nat.add_0_r.
  - rewrite IH. now rewrite Nat.add_succ_r.
Qed.

Lemma length_mapFrom (f : nat -> A -> B) l k :
  length (mapFrom k f l) = length l.
Proof. revert k. induction l; intros k; simpl; auto. Qed.

Lemma In_mapFrom (f : nat -> A -> B) l k y :
  In y (mapFrom k f l) -> exists i a, nth_error l i = Some a /\ y = f (k + i)%nat a.
Proof.
  intros H. apply In_nth_error in H as [i Hi]. rewrite nth_mapFrom in Hi.
  destruct (nth_error l i) as [a|] eqn:Ha; [|discriminate].
  exists i, a. split; [assumption|]. simpl in Hi. congruence.
Qed.

Lemma firstRejection_None (ps : list (Promise A)) :
  firstRejection ps = None ->
  forall p, In p ps -> exists a, outcome p = Return a.
Proof.
  induction ps as [|q ps IH]; simpl; [contradiction|].
  destruct (outcome q) as [e|a] eqn:Hq.
  - destruct (firstRejection ps) as [[t e']|]; [destruct (_ <=? _)%nat|]; discriminate.
  - intros H p [<-|Hp]; eauto.
Qed.

(** The reason of a rejected [Promise.all] is the reason of one of its
    promises, and none of them rejected earlier. *)
Lemma firstRejection_Some (ps : list (Promise A)) t e :
  firstRejection ps = Some (t, e) ->
  (exists p, In p ps /\ outcome p = Thrown e /\ settledAt p = t)
  /\ forall p e', In p ps -> outcome p = Thrown e' -> (t <= settledAt p)%nat.
Proof.
  revert t e. induction ps as [|q ps IH]; simpl; [discriminate|]. intros t e.
  destruct (outcome q) as [eq|a] eqn:Hq.
  - destruct (firstRejection ps) as [[t' e']|] eqn:Hr.
    + destruct (IH t' e' eq_refl) as [(p & Hp & Ho & Ht) Hmin].
      destruct (settledAt q <=? t')%nat eqn:Hle; intros [= <- <-].
      * apply Nat.leb_le in Hle. split; [eauto|].
        intros p' e'' [<-|Hin] Ho'; [lia|]. specialize (Hmin _ _ Hin Ho'). lia.
      * apply Nat.leb_gt in Hle. split; [eauto 6|].
        intros p' e'' [<-|Hin] Ho'; [lia|]. eauto.
    + intros [= <- <-]. split; [eauto|].
      intros p' e'' [<-|Hin] Ho'; [lia|].
      destruct (firstRejection_None ps Hr p' Hin) as [a Ha]. congruence.
  - intros H. destruct (IH t e H) as [(p & Hp & Ho & Ht) Hmin]. split; [eauto 6|].
    intros p' e' [<-|Hin] Ho'; [congruence | eauto].
Qed.

Lemma fulfilled_nth (ps : list (Promise A)) :
  firstRejection ps = None ->
  length (fulfilled ps) = length ps
  /\ forall i p, nth_error ps i = Some p ->
       exists a, outcome p = Return a /\ nth_error (fulfilled ps) i = Some a.
Proof.
  induction ps as [|q ps IH]; simpl.
  - intros _. split; [reflexivity|]. intros [|i] p; discriminate.
  - destruct (outcome q) as [e|a] eqn:Hq.
    + destruct (firstRejection ps) as [[t e']|]; [destruct (_ <=? _)%nat|]; discriminate.
    + intros H. destruct (IH H) as [Hlen Hnth]. split; [simpl; congruence|].
      intros [|i] p; simpl.
      * intros [= <-]. eauto.
      * apply Hnth.
Qed.

Lemma promiseAll_rejects (ps : list (Promise A)) p e :
  In p ps -> outcome p = Thrown e -> exists e', promiseAll ps = Thrown e'.
Proof.
  intros Hin Ho. unfold promiseAll.
  destruct (firstRejection ps) as [[t e']|] eqn:Hr; [eauto|].
  destruct (firstRejection_None ps Hr p Hin) as [a Ha]. congruence.
Qed.

End PromiseAll.

(** The calls and the answer of a search whose term list is not empty
    and whose text search answered. *)
Lemma search_after_text_search gw d raw t terms data :
  Spec.termList raw = t :: terms ->
  textSearch gw (Search.buildQuery (t :: terms)) = Return data ->
  let limited := firstn 20 (match data with Some l => l | None => [] end) in
  Search.search gw d raw =
    (match promiseAll (mapFrom 0 (Search.detailsPromise gw d) limited) with
     | Return results => Ok 200 (Search.mkBody (Search.buildQuery (t :: terms)) results)
     | Thrown e => Fail 500 (lit "Search failed") e
     end,
     TextSearchCall (Search.buildQuery (t :: terms))
     :: mapFrom 0 (fun n p => DetailsCall n (Places.place_id p)) limited).
Proof.
  intros Ht Hs. unfold Search.search. rewrite search_terms_are_term_list, Ht, Hs.
  simpl. now destruct (promiseAll _).
Qed.

(** C1.  Whenever one of the detail fetches that a search issued is
    refused, the search answers 500 "Search failed" and returns no
    result list at all. *)
Theorem search_fails_when_a_detail_fetch_fails gw d raw n pid e :
  In (DetailsCall n pid) (snd (Search.search gw d raw)) ->
  outcome (details gw n pid Search.searchFields) = Thrown e ->
  exists e',
    fst (Search.search gw d raw) = Fail 500 (lit "Search failed") e'
    /\ Search.resultsOf (fst (Search.search gw d raw)) = [].
Proof.
  intros Hcall Hfail.
  destruct (Spec.termList raw) as [|t terms] eqn:Ht.
  { unfold Search.search in Hcall. rewrite search_terms_are_term_list, Ht in Hcall.
    destruct Hcall. }
  destruct (textSearch gw (Search.buildQuery (t :: terms))) as [e0|data] eqn:Hs.
  { unfold Search.search in Hcall. rewrite search_terms_are_term_list, Ht, Hs in Hcall.
    destruct Hcall as [Hcall|[]]. discriminate. }
  rewrite (search_after_text_search gw d raw t terms data Ht Hs) in *.
  cbn [fst snd] in *. destruct Hcall as [Hcall|Hcall]; [discriminate|].
  apply In_mapFrom in Hcall as (i & p & Hp & Heq). injection Heq as -> ->.
  destruct (promiseAll_rejects
              (mapFrom 0 (Search.detailsPromise gw d)
                 (firstn 20 (match data with Some l => l | None => [] end)))
              (Search.detailsPromise gw d i p) e) as [e' He'].
  - apply (nth_error_In _ i). rewrite nth_mapFrom, Hp. reflexivity.
  - unfold Search.detailsPromise. simpl. now rewrite Hfail.
  - rewrite He'. eauto.
Qed.

Lemma search_fails_when_a_detail_fetch_fails_witness :
  In (DetailsCall 2 (Some (lit "c3")))
     (snd (Search.search (Sample.provider Sample.fiveCandidates Sample.thirdFails)
             Sample.emptyDisk (Some (lit "wonton"))))
  /\ exists e',
       fst (Search.search (Sample.provider Sample.fiveCandidates Sample.thirdFails)
              Sample.emptyDisk (Some (lit "wonton")))
       = Fail 500 (lit "Search failed") e'
       /\ Search.resultsOf
            (fst (Search.search (Sample.provider Sample.fiveCandidates Sample.thirdFails)
                    Sample.emptyDisk (Some (lit "wonton")))) = [].
Proof.
  split.
  - vm_compute. tauto.
  - apply (search_fails_when_a_detail_fetch_fails _ _ _ 2%nat (Some (lit "c3"))
             (Some (lit "Request failed with status code 503"))).
    + vm_compute. tauto.
    + reflexivity.
Defined.

(** C2.  A search with a non-empty term list never returns more than 20
    results; when it answers, the results are one per candidate for
    exactly the first 20 candidates of the text search (all of them if
    there are fewer), each built from the candidate at the same
    position. *)
Theorem search_returns_first_twenty_in_order gw d raw :
  (0 < length (Spec.termList raw))%nat ->
  (length (Search.resultsOf (fst (Search.search gw d raw))) <= 20)%nat
  /\ forall status body,
       fst (Search.search gw d raw) = Ok status body ->
       exists data,
         textSearch gw (Search.query body) = Return data
         /\ let candidates := match data with Some l => l | None => [] end in
            length (Search.results body) = Nat.min 20 (length candidates)
            /\ forall i p,
                 (i < 20)%nat -> nth_error candidates i = Some p ->
                 exists result,
                   outcome (details gw i (Places.place_id p) Search.searchFields)
                   = Return result
                   /\ nth_error (Search.results body) i
                      = Some (Search.summarize d p result).
Proof.
  intros Hne.
  destruct (Spec.termList raw) as [|t terms] eqn:Ht; [simpl in Hne; lia|].
  destruct (textSearch gw (Search.buildQuery (t :: terms))) as [e0|data] eqn:Hs.
  { unfold Search.search. rewrite search_terms_are_term_list, Ht, Hs. simpl.
    split; [lia | discriminate]. }
  rewrite (search_after_text_search gw d raw t terms data Ht Hs). cbn [fst].
  set (candidates := match data with Some l => l | None => [] end).
  set (ps := mapFrom 0 (Search.detailsPromise gw d) (firstn 20 candidates)).
  unfold promiseAll. destruct (firstRejection ps) as [[t0 e0]|] eqn:Hr.
  { simpl. split; [lia | discriminate]. }
  destruct (fulfilled_nth ps Hr) as [Hlen Hnth].
  assert (Hl : length (fulfilled ps) = Nat.min 20 (length candidates)).
  { rewrite Hlen. unfold ps. now rewrite length_mapFrom, length_firstn. }
  split; [simpl; lia|].
  intros status body [= <- <-]. exists data. simpl. split; [assumption|].
  split; [assumption|].
  intros i p Hi Hp.
  destruct (Hnth i (Search.detailsPromise gw d i p)) as (a & Ha & Hn).
  { unfold ps. rewrite nth_mapFrom, nth_error_firstn.
    destruct (Nat.ltb_spec i 20); [|lia]. unfold candidates. now rewrite Hp. }
  unfold Search.detailsPromise in Ha. simpl in Ha.
  destruct (outcome (details gw i (Places.place_id p) Search.searchFields))
    as [e|result]; [discriminate|].
  exists result. split; [reflexivity|]. congruence.
Qed.

Lemma search_returns_first_twenty_in_order_witness :
  (0 < length (Spec.termList (Some (lit "wonton"))))%nat
  /\ length (Search.resultsOf
               (fst (Search.search
                       (Sample.provider Sample.manyCandidates (fun _ => Return None))
                       Sample.emptyDisk (Some (lit "wonton"))))) = 20%nat
  /\ (length (Search.resultsOf
                (fst (Search.search
                        (Sample.provider Sample.manyCandidates (fun _ => Return None))
                        Sample.emptyDisk (Some (lit "wonton"))))) <= 20)%nat.
Proof.
  split; [vm_compute; lia|]. split; [reflexivity|].
  apply (search_returns_first_twenty_in_order
           (Sample.provider Sample.manyCandidates (fun _ => Return None))
           Sample.emptyDisk (Some (lit "wonton"))).
  vm_compute. lia.
Defined.

Lemma quoteTerm_cases t :
  (In 32 t -> Search.quoteTerm t = Spec.dquote ++ t ++ Spec.dquote)
  /\ (~ In 32 t -> Search.quoteTerm t = t).
Proof.
  unfold Search.quoteTerm. change (lit " ") with [32].
  destruct (includes t [32]) eqn:H.
  - apply includes_unit in H. split; [reflexivity | contradiction].
  - split; [|reflexivity]. intros Hin. apply includes_unit in Hin. congruence.
Qed.

(** C7, amended.  A search with a non-empty term list sends the
    provider one text query and echoes it in its answer: the terms
    joined with " OR ", a term wrapped in double quotes exactly when it
    contains a space (code unit 32), followed by " restaurants in Hong
    Kong". *)
Theorem search_query_quotes_terms_with_a_space gw d raw :
  (0 < length (Spec.termList raw))%nat ->
  exists pieces q,
    Forall2 (fun t piece =>
               (In 32 t -> piece = Spec.dquote ++ t ++ Spec.dquote)
               /\ (~ In 32 t -> piece = t))
            (Spec.termList raw) pieces
    /\ q = join (lit " OR ") pieces ++ lit " restaurants in Hong Kong"
    /\ hd_error (snd (Search.search gw d raw)) = Some (TextSearchCall q)
    /\ (forall q', In (TextSearchCall q') (snd (Search.search gw d raw)) -> q' = q)
    /\ (forall status body,
          fst (Search.search gw d raw) = Ok status body -> Search.query body = q).
Proof.
  intros Hne.
  destruct (Spec.termList raw) as [|t terms] eqn:Ht; [simpl in Hne; lia|].
  exists (List.map Search.quoteTerm (t :: terms)), (Search.buildQuery (t :: terms)).
  split; [|split; [reflexivity|]].
  { generalize (t :: terms). intros l. induction l; simpl; constructor; auto.
    apply quoteTerm_cases. }
  destruct (textSearch gw (Search.buildQuery (t :: terms))) as [e0|data] eqn:Hs.
  { unfold Search.search. rewrite search_terms_are_term_list, Ht, Hs. simpl.
    split; [reflexivity|]. split; [|discriminate].
    intros q' [[= <-]|[]]. reflexivity. }
  rewrite (search_after_text_search gw d raw t terms data Ht Hs). cbn [fst snd].
  split; [reflexivity|]. split.
  - intros q' [[= <-]|Hin]; [reflexivity|].
    apply In_mapFrom in Hin as (i & p & _ & Heq). discriminate.
  - destruct (promiseAll _); [discriminate|]. now intros status body [= <- <-].
Qed.

Lemma search_query_quotes_terms_with_a_space_witness :
  (0 < length (Spec.termList (Some (lit "wonton,beef brisket"))))%nat
  /\ exists pieces q,
       Forall2 (fun t piece =>
                  (In 32 t -> piece = Spec.dquote ++ t ++ Spec.dquote)
                  /\ (~ In 32 t -> piece = t))
               (Spec.termList (Some (lit "wonton,beef brisket"))) pieces
       /\ q = join (lit " OR ") pieces ++ lit " restaurants in Hong Kong"
       /\ hd_error (snd (Search.search (Sample.provider [] (fun _ => Return None))
                           Sample.emptyDisk (Some (lit "wonton,beef brisket"))))
          = Some (TextSearchCall q)
       /\ (forall q',
             In (TextSearchCall q')
                (snd (Search.search (Sample.provider [] (fun _ => Return None))
                        Sample.emptyDisk (Some (lit "wonton,beef brisket")))) -> q' = q)
       /\ (forall status body,
             fst (Search.search (Sample.provider [] (fun _ => Return None))
                    Sample.emptyDisk (Some (lit "wonton,beef brisket")))
             = Ok status body -> Search.query body = q).
Proof.
  split; [vm_compute; lia|].
  apply (search_query_quotes_terms_with_a_space
           (Sample.provider [] (fun _ => Return None)) Sample.emptyDisk
           (Some (lit "wonton,beef brisket"))).
  vm_compute. lia.
Defined.

(** The example of the specification. *)
Example query_for_wonton_and_beef_brisket :
  Search.buildQuery (Spec.termList (Some (lit "wonton,beef brisket")))
  = lit "wonton OR " ++ Spec.dquote ++ lit "beef brisket" ++ Spec.dquote
    ++ lit " restaurants in Hong Kong".
Proof. reflexivity. Qed.

(** C7 as stated fails: a term whose only whitespace is a tab is a term
    containing whitespace, and the query carries it without quotes. *)
Lemma search_query_leaves_tab_term_unquoted :
  Spec.termList (Some Sample.tabTerm) = [Sample.tabTerm]
  /\ existsb isWhiteSpace Sample.tabTerm = true
  /\ fst (Search.search (Sample.provider [] (fun _ => Return None))
            Sample.emptyDisk (Some Sample.tabTerm))
     = Ok 200 (Search.mkBody (Sample.tabTerm ++ lit " restaurants in Hong Kong") [])
  /\ Sample.tabTerm ++ lit " restaurants in Hong Kong"
     <> Spec.queryFor (Spec.termList (Some Sample.tabTerm)).
Proof.
  split; [reflexivity|]. split; [reflexivity|]. split; [reflexivity|].
  vm_compute. discriminate.
Qed.

(** ** POST /api/upload *)

Lemma upload_of_valid_image env req d f :
  Upload.photo req = Some f ->
  Upload.fileFilter f = true ->
  N.of_nat (length (Upload.content f)) <= Upload.fileSizeLimit ->
  Upload.upload env req d
  = Upload.handler env (Some (Upload.storedName env f)) req
      (writeFile (Upload.storedName env f) (Upload.content f) d).
Proof.
  intros Hf Hfilter Hsize. unfold Upload.upload. rewrite Hf, Hfilter. simpl.
  destruct (N.ltb_spec Upload.fileSizeLimit (N.of_nat (length (Upload.content f))));
    [lia | reflexivity].
Qed.

Lemma metadata_after_variants env name d :
  metadata (snd (Upload.generateResizedVariants env name d)) = metadata d.
Proof.
  unfold Upload.generateResizedVariants.
  destruct (files d !! name); [|reflexivity].
  destruct (Upload.sharp env _ 400 80); [|reflexivity].
  destruct (Upload.sharp env _ 160 75); reflexivity.
Qed.

(** What the handler does once validation has passed. *)
Lemma handler_after_validation env name req d :
  falsy (Upload.place_id req) = false ->
  exists record,
    Upload.handler env (Some name) req d
    = (Ok 201 record,
       writeMetadata (readMetadata d ++ [record])
         (snd (Upload.generateResizedVariants env name d)))
    /\ UploadRecord.filename record = name
    /\ UploadRecord.place_id record = splice (Upload.place_id req)
    /\ (forall e,
          fst (Upload.generateResizedVariants env name d) = Thrown e ->
          UploadRecord.thumb_url record = None
          /\ UploadRecord.preview_url record = None).
Proof.
  intros Hpid. unfold Upload.handler. rewrite Hpid.
  pose proof (metadata_after_variants env name d) as Hmeta.
  destruct (Upload.generateResizedVariants env name d) as [variants d1].
  simpl in Hmeta |- *.
  assert (Hread : readMetadata d1 = readMetadata d).
  { unfold readMetadata, parseMetadata. now rewrite Hmeta. }
  rewrite Hread.
  destruct variants as [e|[tfn pfn]]; eexists; (split; [reflexivity|]); simpl;
    repeat split; intros; discriminate.
Qed.

(** C5.  A valid image uploaded without a [place_id] (absent or empty)
    is answered 400 "Missing place_id"; the metadata file is left as it
    was, and the original that multer had just saved is removed again:
    no file of that name survives, and every other file is untouched. *)
Theorem upload_without_place_id_is_rejected_and_cleaned env req d f :
  Upload.photo req = Some f ->
  Upload.fileFilter f = true ->
  N.of_nat (length (Upload.content f)) <= Upload.fileSizeLimit ->
  falsy (Upload.place_id req) = true ->
  fst (Upload.upload env req d) = Fail 400 (lit "Missing place_id") None
  /\ metadata (snd (Upload.upload env req d)) = metadata d
  /\ files (snd (Upload.upload env req d)) !! Upload.storedName env f = None
  /\ files (snd (Upload.upload env req d)) = delete (Upload.storedName env f) (files d).
Proof.
  intros Hf Hfilter Hsize Hpid.
  rewrite (upload_of_valid_image env req d f Hf Hfilter Hsize).
  unfold Upload.handler, unlinkSync, writeFile. rewrite Hpid. simpl.
  rewrite lookup_insert_eq. simpl. rewrite delete_insert_eq.
  repeat split. apply lookup_delete_eq.
Qed.

Lemma upload_without_place_id_is_rejected_and_cleaned_witness :
  falsy (Upload.place_id (Upload.mkRequest (Some Sample.image) (Some []) None None)) = true
  /\ fst (Upload.upload (Sample.env true)
            (Upload.mkRequest (Some Sample.image) (Some []) None None) Sample.emptyDisk)
     = Fail 400 (lit "Missing place_id") None
  /\ metadata (snd (Upload.upload (Sample.env true)
            (Upload.mkRequest (Some Sample.image) (Some []) None None) Sample.emptyDisk))
     = metadata Sample.emptyDisk
  /\ files (snd (Upload.upload (Sample.env true)
            (Upload.mkRequest (Some Sample.image) (Some []) None None) Sample.emptyDisk))
       !! Upload.storedName (Sample.env true) Sample.image = None
  /\ files (snd (Upload.upload (Sample.env true)
            (Upload.mkRequest (Some Sample.image) (Some []) None None) Sample.emptyDisk))
     = delete (Upload.storedName (Sample.env true) Sample.image) (files Sample.emptyDisk).
Proof.
  split; [reflexivity|].
  apply (upload_without_place_id_is_rejected_and_cleaned (Sample.env true)
           (Upload.mkRequest (Some Sample.image) (Some []) None None)
           Sample.emptyDisk Sample.image).
  - reflexivity.
  - reflexivity.
  - unfold Upload.fileSizeLimit. simpl. lia.
  - reflexivity.
Defined.

(** The record the handler builds, spelled out. *)
Lemma handler_record env name req d :
  falsy (Upload.place_id req) = false ->
  Upload.handler env (Some name) req d
  = (Ok 201
       (UploadRecord.mk (Upload.recordUuid env) name (Upload.uploads name)
          match fst (Upload.generateResizedVariants env name d) with
          | Return (t, _) => Some (Upload.uploads t)
          | Thrown _ => None
          end
          match fst (Upload.generateResizedVariants env name d) with
          | Return (_, p) => Some (Upload.uploads p)
          | Thrown _ => None
          end
          (splice (Upload.place_id req))
          (splice (orElse (Upload.dish req) (Some [])))
          (splice (orElse (Upload.uploader_name req) (Some [])))
          (Upload.now env)),
     mkDisk (files (snd (Upload.generateResizedVariants env name d)))
       (Records
          (readMetadata d
           ++ [UploadRecord.mk (Upload.recordUuid env) name (Upload.uploads name)
                 match fst (Upload.generateResizedVariants env name d) with
                 | Return (t, _) => Some (Upload.uploads t)
                 | Thrown _ => None
                 end
                 match fst (Upload.generateResizedVariants env name d) with
                 | Return (_, p) => Some (Upload.uploads p)
                 | Thrown _ => None
                 end
                 (splice (Upload.place_id req))
                 (splice (orElse (Upload.dish req) (Some [])))
                 (splice (orElse (Upload.uploader_name req) (Some [])))
                 (Upload.now env)]))).
Proof.
  intros Hpid. unfold Upload.handler. rewrite Hpid.
  pose proof (metadata_after_variants env name d) as Hmeta.
  destruct (Upload.generateResizedVariants env name d) as [variants d1].
  cbn [fst snd] in *.
  assert (Hread : readMetadata d1 = readMetadata d).
  { unfold readMetadata, parseMetadata. now rewrite Hmeta. }
  rewrite Hread. now destruct variants as [e|[tfn pfn]].
Qed.

(** C6.  An upload that passes validation is answered 201 whatever the
    variant generator does, and its record is appended to the store:
    when the metadata file holds the records [arr], it holds [arr]
    followed by the new record afterwards.  The record is the one of
    this request (file name, URL, place, dish, uploader, identifier and
    time); when the generator throws, it carries neither a thumb nor a
    preview reference. *)
Theorem upload_survives_variant_failure env req d f arr :
  Upload.photo req = Some f ->
  Upload.fileFilter f = true ->
  N.of_nat (length (Upload.content f)) < Upload.fileSizeLimit ->
  falsy (Upload.place_id req) = false ->
  metadata d = Records arr ->
  exists record,
    fst (Upload.upload env req d) = Ok 201 record
    /\ metadata (snd (Upload.upload env req d)) = Records (arr ++ [record])
    /\ UploadRecord.id record = Upload.recordUuid env
    /\ UploadRecord.filename record = Upload.storedName env f
    /\ UploadRecord.url record = lit "/uploads/" ++ Upload.storedName env f
    /\ Upload.place_id req = Some (UploadRecord.place_id record)
    /\ UploadRecord.dish record
       = match Upload.dish req with Some s => s | None => [] end
    /\ UploadRecord.uploader_name record
       = match Upload.uploader_name req with Some s => s | None => [] end
    /\ UploadRecord.created_at record = Upload.now env
    /\ (forall e,
          fst (Upload.generateResizedVariants env (Upload.storedName env f)
                 (writeFile (Upload.storedName env f) (Upload.content f) d))
          = Thrown e ->
          UploadRecord.thumb_url record = None
          /\ UploadRecord.preview_url record = None).
Proof.
  intros Hf Hfilter Hsize Hpid Hmeta. apply N.lt_le_incl in Hsize.
  rewrite (upload_of_valid_image env req d f Hf Hfilter Hsize).
  rewrite (handler_record env _ req _ Hpid). cbn [fst snd metadata].
  eexists. split; [reflexivity|].
  unfold readMetadata, parseMetadata. cbn [writeFile metadata]. rewrite Hmeta.
  split; [reflexivity|]. cbn [UploadRecord.id UploadRecord.filename UploadRecord.url
    UploadRecord.place_id UploadRecord.dish UploadRecord.uploader_name
    UploadRecord.created_at UploadRecord.thumb_url UploadRecord.preview_url].
  repeat split.
  - destruct (Upload.place_id req) as [[|c p]|]; [discriminate | reflexivity | discriminate].
  - now destruct (Upload.dish req) as [[|c s]|].
  - now destruct (Upload.uploader_name req) as [[|c s]|].
  - now rewrite H.
  - now rewrite H.
Qed.

Lemma upload_survives_variant_failure_witness :
  let d := mkDisk ∅ (Records [Sample.stored "u1" "p1" "Wonton noodles"]) in
  let req := Upload.mkRequest (Some Sample.image) (Some (lit "p1")) (Some (lit "Congee")) None in
  (exists e,
     fst (Upload.generateResizedVariants (Sample.env false)
            (Upload.storedName (Sample.env false) Sample.image)
            (writeFile (Upload.storedName (Sample.env false) Sample.image)
               (Upload.content Sample.image) d)) = Thrown e)
  /\ metadata d = Records [Sample.stored "u1" "p1" "Wonton noodles"]
  /\ exists record,
       fst (Upload.upload (Sample.env false) req d) = Ok 201 record
       /\ metadata (snd (Upload.upload (Sample.env false) req d))
          = Records ([Sample.stored "u1" "p1" "Wonton noodles"] ++ [record])
       /\ UploadRecord.id record = Upload.recordUuid (Sample.env false)
       /\ UploadRecord.filename record = Upload.storedName (Sample.env false) Sample.image
       /\ UploadRecord.url record
          = lit "/uploads/" ++ Upload.storedName (Sample.env false) Sample.image
       /\ Upload.place_id req = Some (UploadRecord.place_id record)
       /\ UploadRecord.dish record
          = match Upload.dish req with Some s => s | None => [] end
       /\ UploadRecord.uploader_name record
          = match Upload.uploader_name req with Some s => s | None => [] end
       /\ UploadRecord.created_at record = Upload.now (Sample.env false)
       /\ (forall e,
             fst (Upload.generateResizedVariants (Sample.env false)
                    (Upload.storedName (Sample.env false) Sample.image)
                    (writeFile (Upload.storedName (Sample.env false) Sample.image)
                       (Upload.content Sample.image) d)) = Thrown e ->
             UploadRecord.thumb_url record = None
             /\ UploadRecord.preview_url record = None).
Proof.
  intros d req. split; [eexists; vm_compute; reflexivity|]. split; [reflexivity|].
  apply (upload_survives_variant_failure (Sample.env false) req d Sample.image
           [Sample.stored "u1" "p1" "Wonton noodles"]).
  - reflexivity.
  - reflexivity.
  - unfold Upload.fileSizeLimit. simpl. lia.
  - reflexivity.
  - reflexivity.
Defined.

(** C8.  What the code does with a file whose [mimetype] does not start
    with "image/": the file filter refuses it before the storage engine
    writes anything, so the disk (media files and metadata) is
    unchanged; but the route handler, which alone answers 400, does not
    run: the filter's error "Only image files are allowed" goes to the
    framework, whose default error handler answers with status 500
    where the specification asks for a validation error (400). *)
Theorem upload_of_non_image_is_refused_before_storage env req d f :
  Upload.photo req = Some f ->
  startsWith (Upload.mimetype f) (lit "image/") = false ->
  Upload.upload env req d = (Unhandled (lit "Only image files are allowed"), d)
  /\ statusOf (fst (Upload.upload env req d)) = 500%nat
  /\ files (snd (Upload.upload env req d)) = files d
  /\ metadata (snd (Upload.upload env req d)) = metadata d.
Proof.
  intros Hf Hmime. unfold Upload.upload, Upload.fileFilter. rewrite Hf, Hmime.
  repeat split.
Qed.

Lemma upload_of_non_image_is_refused_before_storage_witness :
  startsWith (Upload.mimetype Sample.textFile) (lit "image/") = false
  /\ Upload.upload (Sample.env true)
       (Upload.mkRequest (Some Sample.textFile) (Some (lit "p1")) None None)
       Sample.emptyDisk
     = (Unhandled (lit "Only image files are allowed"), Sample.emptyDisk).
Proof.
  split; [reflexivity|].
  apply (upload_of_non_image_is_refused_before_storage (Sample.env true)
           (Upload.mkRequest (Some Sample.textFile) (Some (lit "p1")) None None)
           Sample.emptyDisk Sample.textFile); reflexivity.
Defined.

(** The failing input: a text/plain upload for place "p1" is answered
    500, not 400, while the same request without a photo is answered
    400. *)
Example text_file_upload_is_answered_500 :
  statusOf (fst (Upload.upload (Sample.env true)
                   (Upload.mkRequest (Some Sample.textFile) (Some (lit "p1")) None None)
                   Sample.emptyDisk)) = 500%nat
  /\ statusOf (fst (Upload.upload (Sample.env true)
                      (Upload.mkRequest None (Some (lit "p1")) None None)
                      Sample.emptyDisk)) = 400%nat.
Proof. split; reflexivity. Qed.

(** C10.  When the metadata file cannot be read or parsed while an
    otherwise valid upload is ingested, [readMetadata] yields the empty
    list, the upload is answered 201, and the file is rewritten with the
    new record as its only entry. *)
Theorem upload_over_corrupt_store_keeps_only_new_record env req d f :
  Upload.photo req = Some f ->
  Upload.fileFilter f = true ->
  N.of_nat (length (Upload.content f)) <= Upload.fileSizeLimit ->
  falsy (Upload.place_id req) = false ->
  metadata d = NoFile \/ metadata d = Garbage ->
  readMetadata d = []
  /\ exists record,
       fst (Upload.upload env req d) = Ok 201 record
       /\ metadata (snd (Upload.upload env req d)) = Records [record]
       /\ readMetadata (snd (Upload.upload env req d)) = [record].
Proof.
  intros Hf Hfilter Hsize Hpid Hcorrupt.
  assert (Hread : readMetadata d = []).
  { unfold readMetadata, parseMetadata. destruct Hcorrupt as [-> | ->]; reflexivity. }
  split; [assumption|].
  rewrite (upload_of_valid_image env req d f Hf Hfilter Hsize).
  destruct (handler_after_validation env (Upload.storedName env f) req
              (writeFile (Upload.storedName env f) (Upload.content f) d) Hpid)
    as (record & -> & _).
  exists record. cbn [fst snd].
  change (readMetadata (writeFile (Upload.storedName env f) (Upload.content f) d))
    with (readMetadata d).
  rewrite Hread. split; [reflexivity|]. split; reflexivity.
Qed.

Lemma upload_over_corrupt_store_keeps_only_new_record_witness :
  metadata (mkDisk ∅ Garbage) = Garbage
  /\ readMetadata (mkDisk ∅ Garbage) = []
  /\ exists record,
       fst (Upload.upload (Sample.env true)
              (Upload.mkRequest (Some Sample.image) (Some (lit "p1")) None None)
              (mkDisk ∅ Garbage)) = Ok 201 record
       /\ metadata (snd (Upload.upload (Sample.env true)
              (Upload.mkRequest (Some Sample.image) (Some (lit "p1")) None None)
              (mkDisk ∅ Garbage))) = Records [record]
       /\ readMetadata (snd (Upload.upload (Sample.env true)
              (Upload.mkRequest (Some Sample.image) (Some (lit "p1")) None None)
              (mkDisk ∅ Garbage))) = [record].
Proof.
  split; [reflexivity|].
  apply (upload_over_corrupt_store_keeps_only_new_record (Sample.env true)
           (Upload.mkRequest (Some Sample.image) (Some (lit "p1")) None None)
           (mkDisk ∅ Garbage) Sample.image).
  - reflexivity.
  - reflexivity.
  - unfold Upload.fileSizeLimit. simpl. lia.
  - reflexivity.
  - right. reflexivity.
Defined.

(** ** Stable sorting *)

Section Sorting.

Context {A : Type} (cmp : A -> A -> Z) (key : A -> Z).
Hypothesis cmp_key : forall a b, cmp a b = (key a - key b)%Z.

Lemma insertSorted_perm x l : Permutation (Obj.insertSorted cmp x l) (x :: l).
Proof.
  induction l as [|y l IH]; simpl; [reflexivity|].
  destruct (cmp x y <=? 0)%Z; [reflexivity|].
  rewrite IH. apply perm_swap.
Qed.

Lemma sort_perm l : Permutation (Obj.sort cmp l) l.
Proof.
  induction l as [|x l IH]; simpl; [reflexivity|].
  rewrite insertSorted_perm. now rewrite IH.
Qed.

Lemma insertSorted_sorted x l :
  StronglySorted (fun a b => (key a <= key b)%Z) l ->
  StronglySorted (fun a b => (key a <= key b)%Z) (Obj.insertSorted cmp x l).
Proof.
  induction 1 as [|y l Hs IH Hy]; simpl.
  - repeat constructor.
  - rewrite cmp_key. destruct (Z.leb_spec (key x - key y) 0).
    + constructor; [now constructor|]. constructor; [lia|].
      eapply List.Forall_impl; [|exact Hy]. simpl. intros; lia.
    + constructor; [assumption|].
      rewrite (List.Forall_forall (fun b => (key y <= key b)%Z)).
      intros b Hb. apply (Permutation_in _ (insertSorted_perm x l)) in Hb.
      destruct Hb as [<-|Hb]; [lia|].
      rewrite List.Forall_forall in Hy. now apply Hy.
Qed.

Lemma sort_sorted l :
  StronglySorted (fun a b => (key a <= key b)%Z) (Obj.sort cmp l).
Proof.
  induction l as [|x l IH]; simpl; [constructor | now apply insertSorted_sorted].
Qed.



End Sorting.

Lemma sort_map {A B} (h : A -> B) (cmpA : A -> A -> Z) (cmpB : B -> B -> Z) l :
  (forall a b, cmpB (h a) (h b) = cmpA a b) ->
  Obj.sort cmpB (List.map h l) = List.map h (Obj.sort cmpA l).
Proof.
  intros Hh. induction l as [|x l IH]; [reflexivity|]. cbn [List.map Obj.sort fold_right].
  change (fold_right (Obj.insertSorted cmpB) [] (List.map h l))
    with (Obj.sort cmpB (List.map h l)).
  change (fold_right (Obj.insertSorted cmpA) [] l) with (Obj.sort cmpA l).
  rewrite IH. generalize (Obj.sort cmpA l). intros m.
  induction m as [|y m IHm]; [reflexivity|]. cbn [List.map Obj.insertSorted].
  rewrite Hh. destruct (cmpA x y <=? 0)%Z; [reflexivity|]. cbn [List.map]. now rewrite IHm.
Qed.

Lemma filter_map_fst {V W} (p : list N -> bool) (h : list N * V -> list N * W) l :
  (forall e, fst (h e) = fst e) ->
  List.filter (fun e => p (fst e)) (List.map h l)
  = List.map h (List.filter (fun e => p (fst e)) l).
Proof.
  intros Hh. induction l as [|x l IH]; [reflexivity|]. cbn [List.map List.filter].
  rewrite Hh. destruct (p (fst x)); cbn [List.map]; now rewrite IH.
Qed.

(** [Object.entries] looks at the keys only. *)
Lemma entries_map {V W} (h : list N * V -> list N * W) l :
  (forall e, fst (h e) = fst e) ->
  Obj.entries (List.map h l) = List.map h (Obj.entries l).
Proof.
  intros Hh. unfold Obj.entries. rewrite map_app.
  rewrite (filter_map_fst Obj.isArrayIndex h l Hh).
  rewrite (filter_map_fst (fun k => negb (Obj.isArrayIndex k)) h l Hh).
  f_equal. apply sort_map. intros a b. unfold Obj.byIndex. now rewrite !Hh.
Qed.

(** ** First-seen order and counts *)

Lemma arrayIncludes_iff l x : arrayIncludes l x = true <-> In x l.
Proof.
  unfold arrayIncludes. rewrite existsb_exists. split.
  - intros [y [Hy Heq]]. apply streq_iff in Heq. now subst.
  - intros H. exists x. split; [assumption | apply streq_refl].
Qed.

Lemma arrayIncludes_false l x : arrayIncludes l x = false <-> ~ In x l.
Proof.
  rewrite <- arrayIncludes_iff. destruct (arrayIncludes l x); split; congruence.
Qed.

Lemma streq_sym (a b : list N) : streq a b = streq b a.
Proof.
  destruct (streq b a) eqn:E.
  - apply streq_iff in E. subst. apply streq_refl.
  - apply streq_false_iff. apply streq_false_iff in E. congruence.
Qed.

Lemma firstSeen_snoc l x :
  Spec.firstSeen (l ++ [x])
  = if arrayIncludes (Spec.firstSeen l) x then Spec.firstSeen l
    else Spec.firstSeen l ++ [x].
Proof. unfold Spec.firstSeen. now rewrite fold_left_app. Qed.

Lemma firstSeen_In l x : In x (Spec.firstSeen l) <-> In x l.
Proof.
  revert x. induction l as [|y l IH] using rev_ind; intros x; [reflexivity|].
  rewrite firstSeen_snoc, in_app_iff.
  destruct (arrayIncludes (Spec.firstSeen l) y) eqn:E.
  - apply arrayIncludes_iff in E. rewrite IH in *. simpl. split; [tauto|].
    intros [H|[<-|[]]]; assumption.
  - rewrite in_app_iff, IH. reflexivity.
Qed.

Lemma firstSeen_NoDup l : NoDup (Spec.firstSeen l).
Proof.
  induction l as [|y l IH] using rev_ind; [constructor|].
  rewrite firstSeen_snoc.
  destruct (arrayIncludes (Spec.firstSeen l) y) eqn:E; [assumption|].
  apply arrayIncludes_false in E.
  apply NoDup_app. split; [assumption|]. split.
  - intros z Hz Hy. apply list_elem_of_In in Hz, Hy. destruct Hy as [<-|[]].
    contradiction.
  - apply NoDup_singleton.
Qed.

Lemma filter_firstSeen p l :
  List.filter p (Spec.firstSeen l) = Spec.firstSeen (List.filter p l).
Proof.
  induction l as [|y l IH] using rev_ind; [reflexivity|].
  rewrite List.filter_app, firstSeen_snoc. cbn [List.filter].
  destruct (p y) eqn:Hp.
  - rewrite firstSeen_snoc, <- IH.
    destruct (arrayIncludes (Spec.firstSeen l) y) eqn:E.
    + apply arrayIncludes_iff in E.
      assert (H : arrayIncludes (List.filter p (Spec.firstSeen l)) y = true).
      { apply arrayIncludes_iff, filter_In. auto. }
      now rewrite H.
    + apply arrayIncludes_false in E.
      assert (H : arrayIncludes (List.filter p (Spec.firstSeen l)) y = false).
      { apply arrayIncludes_false. intros H. apply filter_In in H. tauto. }
      rewrite H, List.filter_app. cbn [List.filter]. now rewrite Hp.
  - rewrite app_nil_r, <- IH.
    destruct (arrayIncludes (Spec.firstSeen l) y); [reflexivity|].
    rewrite List.filter_app. cbn [List.filter]. rewrite Hp. apply app_nil_r.
Qed.

Lemma occurrences_snoc l x k :
  Spec.occurrences (l ++ [x]) k
  = Spec.occurrences l k + (if streq k x then 1 else 0).
Proof.
  unfold Spec.occurrences. rewrite List.filter_app, length_app. cbn [List.filter].
  destruct (streq k x); simpl; lia.
Qed.

Lemma occurrences_absent l k : ~ In k l -> Spec.occurrences l k = 0.
Proof.
  intros H. unfold Spec.occurrences.
  replace (List.filter (streq k) l) with (@nil (list N)); [reflexivity|].
  symmetry. induction l as [|y l IH]; [reflexivity|]. cbn [List.filter].
  destruct (streq k y) eqn:E.
  - apply streq_iff in E. subst. exfalso. apply H. now left.
  - apply IH. intros Hin. apply H. now right.
Qed.

(** ** The word count object *)

Section WordCounts.

Implicit Types (w k : list N) (ws keys : list (list N)) (o : list (list N * Obj.value)).

Lemma countWord_counted o w :
  Place.countWord o w = if Spec.counted w then Spec.bump o w else o.
Proof.
  unfold Place.countWord, Spec.counted, Spec.bump, arrayIncludes.
  change Spec.stopWords with Place.stopWords.
  destruct (Nat.leb_spec (length w) 1), (Nat.ltb_spec 1 (length w)); try lia.
  - reflexivity.
  - now destruct (existsb (streq w) Place.stopWords).
Qed.

Lemma fold_countWord ws o :
  fold_left Place.countWord ws o = fold_left Spec.bump (List.filter Spec.counted ws) o.
Proof.
  revert o. induction ws as [|w ws IH]; intros o; [reflexivity|].
  cbn [fold_left List.filter]. rewrite countWord_counted.
  destruct (Spec.counted w); cbn [fold_left]; apply IH.
Qed.

Lemma getOwn_map (g : list N -> Obj.value) keys w :
  Obj.getOwn (List.map (fun k => (k, g k)) keys) w
  = if arrayIncludes keys w then Some (g w) else None.
Proof.
  induction keys as [|k keys IH]; [reflexivity|].
  unfold arrayIncludes in *. cbn [List.map Obj.getOwn existsb].
  rewrite (streq_sym w k). destruct (streq k w) eqn:E; [|exact IH].
  apply streq_iff in E. now subst.
Qed.

Lemma setOwn_present (g : list N -> Obj.value) keys w v :
  NoDup keys -> In w keys ->
  Obj.setOwn (List.map (fun k => (k, g k)) keys) w v
  = List.map (fun k => (k, if streq k w then v else g k)) keys.
Proof.
  induction keys as [|k keys IH]; intros Hnd Hin; [destruct Hin|].
  apply NoDup_cons in Hnd as [Hk Hnd]. rewrite list_elem_of_In in Hk.
  cbn [List.map Obj.setOwn]. destruct (streq k w) eqn:E.
  - apply streq_iff in E. subst k. f_equal. apply map_ext_in.
    intros k Hkin. destruct (streq k w) eqn:E'; [|reflexivity].
    apply streq_iff in E'. subst. contradiction.
  - f_equal. apply IH; [assumption|]. destruct Hin as [->|Hin]; [|assumption].
    rewrite streq_refl in E. discriminate.
Qed.

Lemma setOwn_absent (g : list N -> Obj.value) keys w v :
  ~ In w keys ->
  Obj.setOwn (List.map (fun k => (k, g k)) keys) w v
  = List.map (fun k => (k, g k)) keys ++ [(w, v)].
Proof.
  induction keys as [|k keys IH]; intros Hin; [reflexivity|].
  cbn [List.map Obj.setOwn]. destruct (streq k w) eqn:E.
  - apply streq_iff in E. subst. exfalso. apply Hin. now left.
  - cbn [app]. f_equal. apply IH. intros H. apply Hin. now right.
Qed.

(** A lower-case word other than [constructor] and [__proto__] finds
    nothing on [Object.prototype]. *)
Lemma nothing_inherited w :
  Spec.noUpper w = true ->
  w <> lit "constructor" -> w <> lit "__proto__" ->
  Obj.objectPrototype w = None.
Proof.
  intros Hlow Hc Hp. unfold Obj.objectPrototype.
  apply streq_false_iff in Hc, Hp. rewrite Hc, Hp.
  destruct (arrayIncludes Obj.nativeNames w) eqn:E; [|reflexivity].
  apply arrayIncludes_iff in E. unfold Obj.nativeNames in E. cbn [In] in E.
  repeat (destruct E as [<-|E]; [vm_compute in Hlow; discriminate|]).
  destruct E.
Qed.

Lemma bump_tally ws w :
  Spec.noUpper w = true -> w <> lit "constructor" -> w <> lit "__proto__" ->
  Spec.bump (Spec.tally ws) w = Spec.tally (ws ++ [w]).
Proof.
  intros Hlow Hc Hp. unfold Spec.bump, Spec.tally, Obj.set.
  apply streq_false_iff in Hp. rewrite Hp. apply streq_false_iff in Hp.
  rewrite firstSeen_snoc. unfold Obj.get. rewrite getOwn_map.
  destruct (arrayIncludes (Spec.firstSeen ws) w) eqn:E.
  - (* a key already present is incremented in place *)
    apply arrayIncludes_iff in E. cbn [Obj.orZeroPlusOne].
    rewrite setOwn_present; [|apply firstSeen_NoDup|assumption].
    apply map_ext_in. intros k _. rewrite occurrences_snoc.
    destruct (streq k w) eqn:Ek; [|f_equal; f_equal; lia].
    apply streq_iff in Ek. now subst.
  - (* a new key is created last, with count 1 *)
    apply arrayIncludes_false in E.
    rewrite (nothing_inherited w Hlow Hc Hp). cbn [Obj.orZeroPlusOne].
    rewrite setOwn_absent by assumption. rewrite map_app. cbn [List.map].
    assert (Hw : ~ In w ws).
    { intros Hin. now apply E, firstSeen_In. }
    f_equal.
    + apply map_ext_in. intros k Hk. rewrite occurrences_snoc.
      destruct (streq k w) eqn:Ek; [|f_equal; f_equal; lia].
      apply streq_iff in Ek. subst. contradiction.
    + rewrite occurrences_snoc, streq_refl, occurrences_absent by assumption.
      reflexivity.
Qed.

Lemma fold_bump ws :
  Forall (fun w => Spec.noUpper w = true /\ w <> lit "constructor"
                   /\ w <> lit "__proto__") ws ->
  fold_left Spec.bump ws [] = Spec.tally ws.
Proof.
  induction ws as [|w ws IH] using rev_ind; intros H; [reflexivity|].
  apply Forall_app in H as [Hws Hw]. apply Forall_cons in Hw as [(Hlow & Hc & Hp) _].
  rewrite fold_left_app. cbn [fold_left]. rewrite IH by assumption.
  now apply bump_tally.
Qed.

End WordCounts.

(** ** Splitting the review text *)

Lemma isWordUnit_wordChar c : isWordUnit c = Spec.wordChar c.
Proof.
  unfold isWordUnit, Spec.wordChar.
  destruct (97 <=? c), (c <=? 122), (65 <=? c), (c <=? 90), (48 <=? c), (c <=? 57),
    (c =? 95); reflexivity.
Qed.

(** Between the pieces of [split(/\W+/)] and the text cut at every
    non-word character there are only empty pieces of difference. *)
Lemma splitNonWord_pieces (p : list N -> bool) cur insep s :
  p [] = false ->
  (insep = true -> cur = []) ->
  List.filter p (splitNonWordFrom cur insep s)
  = List.filter p
      (match Spec.pieces s with
       | h :: rest => (rev cur ++ h) :: rest
       | [] => [rev cur]
       end).
Proof.
  intros Hp. revert cur insep. induction s as [|c s IH]; intros cur insep Hcur.
  - cbn. now rewrite app_nil_r.
  - cbn [splitNonWordFrom]. unfold Spec.pieces. cbn [fold_right].
    change (fold_right Spec.cutAt [[]] s) with (Spec.pieces s).
    unfold Spec.cutAt. rewrite isWordUnit_wordChar. destruct (Spec.wordChar c).
    + rewrite IH by discriminate. cbn [rev].
      destruct (Spec.pieces s) as [|h rest]; [reflexivity|]. now rewrite <- app_assoc.
    + assert (Hrest : List.filter p (splitNonWordFrom [] true s)
                      = List.filter p (Spec.pieces s)).
      { rewrite IH by reflexivity. cbn [rev app].
        destruct (Spec.pieces s); [|reflexivity]. cbn [List.filter]. now rewrite Hp. }
      destruct insep.
      * rewrite (Hcur eq_refl). cbn [rev app List.filter]. now rewrite Hp.
      * rewrite app_nil_r. cbn [List.filter]. now rewrite Hrest.
Qed.

Lemma reviewText_is_allReviewText {table : CaseTable} reviews :
  Place.allReviewText reviews = Spec.reviewText reviews.
Proof.
  unfold Place.allReviewText, Spec.reviewText. do 2 f_equal.
  apply map_ext. intros r. unfold Place.textOf.
  now destruct (Place.text r) as [[|c t]|].
Qed.

Lemma countedWords_split {table : CaseTable} reviews :
  List.filter Spec.counted (splitNonWord (Place.allReviewText reviews))
  = Spec.countedWords reviews.
Proof.
  unfold Spec.countedWords, splitNonWord.
  rewrite reviewText_is_allReviewText, (splitNonWord_pieces Spec.counted [] false).
  - cbn [rev app]. now destruct (Spec.pieces (Spec.reviewText reviews)).
  - reflexivity.
  - discriminate.
Qed.

(** The pieces are made of characters of the text. *)
Lemma pieces_units s w c : In w (Spec.pieces s) -> In c w -> In c s.
Proof.
  revert w. induction s as [|a s IH]; intros w Hw Hc.
  - destruct Hw as [<-|[]]. destruct Hc.
  - unfold Spec.pieces in Hw. cbn [fold_right] in Hw.
    change (fold_right Spec.cutAt [[]] s) with (Spec.pieces s) in Hw.
    unfold Spec.cutAt in Hw. destruct (Spec.wordChar a).
    + destruct (Spec.pieces s) as [|h rest].
      * destruct Hw as [<-|[]]. destruct Hc as [<-|[]]. now left.
      * destruct Hw as [<-|Hw].
        -- destruct Hc as [<-|Hc]; [now left|]. right. apply (IH h); [now left | assumption].
        -- right. apply (IH w); [now right | assumption].
    + destruct Hw as [<-|Hw]; [destruct Hc|]. right. now apply (IH w).
Qed.

(** The words come out of lower-cased text: no capital letter is left. *)
Lemma countedWords_lower {table : CaseTable} {lawful : LowerCases table} reviews w :
  In w (Spec.countedWords reviews) -> Spec.noUpper w = true.
Proof.
  unfold Spec.countedWords, Spec.reviewText. intros H.
  apply filter_In in H as [H _]. unfold Spec.noUpper. apply forallb_forall.
  intros c Hc. eapply lower_no_capital. exact (pieces_units _ _ _ H Hc).
Qed.

Lemma wordCounts_tally {table : CaseTable} {lawful : LowerCases table} reviews :
  ~ In (lit "constructor") (Spec.countedWords reviews) ->
  ~ In (lit "__proto__") (Spec.countedWords reviews) ->
  Place.wordCounts reviews = Spec.tally (Spec.countedWords reviews).
Proof.
  intros Hc Hp. unfold Place.wordCounts. rewrite fold_countWord, countedWords_split.
  apply fold_bump. apply List.Forall_forall. intros w Hw. split; [|split].
  - now apply (countedWords_lower reviews).
  - intros ->. contradiction.
  - intros ->. contradiction.
Qed.

Lemma numeric_of_numbers (l : list (list N * N)) :
  Place.numeric (List.map (fun e => (fst e, Obj.VNum (snd e))) l) = Some l.
Proof.
  induction l as [|[k n] l IH]; [reflexivity|].
  cbn [List.map Place.numeric fst snd Obj.toNumber]. now rewrite IH.
Qed.

Lemma filter_withCount (p : list N -> bool) ws keys :
  List.filter (fun e => p (fst e)) (List.map (Spec.withCount ws) keys)
  = List.map (Spec.withCount ws) (List.filter p keys).
Proof.
  induction keys as [|k keys IH]; [reflexivity|]. cbn [List.map List.filter fst].
  unfold Spec.withCount at 1. cbn [fst].
  destruct (p k); cbn [List.map]; now rewrite IH.
Qed.

Lemma StronglySorted_weaken {A} (R R' : A -> A -> Prop) l :
  (forall a b, R a b -> R' a b) -> StronglySorted R l -> StronglySorted R' l.
Proof.
  intros HR. induction 1 as [|x l Hs IH Hx]; constructor; [assumption|].
  eapply List.Forall_impl; [|exact Hx]. auto.
Qed.

(** The entries of the word count object, array indices first. *)
Lemma entries_of_tally ws :
  Place.numeric (Obj.entries (Spec.tally ws))
  = Some (Obj.sort Obj.byIndex
            (List.map (Spec.withCount ws)
               (Spec.firstSeen (List.filter Obj.isArrayIndex ws)))
          ++ List.map (Spec.withCount ws)
               (Spec.firstSeen (List.filter Spec.namedKey ws))).
Proof.
  unfold Spec.tally.
  rewrite <- (map_map (Spec.withCount ws) (fun e => (fst e, Obj.VNum (snd e)))).
  rewrite entries_map by reflexivity. rewrite numeric_of_numbers. f_equal.
  unfold Obj.entries.
  rewrite (filter_withCount Obj.isArrayIndex).
  rewrite (filter_withCount (fun k => negb (Obj.isArrayIndex k))).
  now rewrite !filter_firstSeen.
Qed.



(** The example of the specification: the word seen twice leads. *)
Example candidates_of_noodle_review :
  Place.candidates (table := Sample.ascii)
    [Sample.said "Great noodles and amazing broth, noodles!"]
  = Some [lit "noodles"; lit "great"; lit "amazing"; lit "broth"].
Proof. reflexivity. Qed.

(** Only ten keys are returned. *)
Example candidates_are_capped :
  Place.candidates (table := Sample.ascii)
    [Sample.said "aa bb cc dd ee ff gg hh ii jj kk ll mm kk"]
  = Some [lit "kk"; lit "aa"; lit "bb"; lit "cc"; lit "dd"; lit "ee"; lit "ff";
          lit "gg"; lit "hh"; lit "ii"].
Proof. reflexivity. Qed.

(** With the word "constructor" a count is a string and the order is
    left to the engine. *)
Example candidates_with_constructor :
  Place.candidates (table := Sample.ascii) [Sample.said "constructor noodles"] = None.
Proof. reflexivity. Qed.


(** On ASCII review text the case tables of every engine agree, so the
    sample tables decide the answer. *)
Lemma candidates_of_ascii_text {table : CaseTable} {lawful : LowerCases table} reviews :
  isAscii (join (lit " ") (List.map Place.textOf reviews)) = true ->
  Place.candidates reviews = Place.candidates (table := Sample.ascii) reviews.
Proof.
  intros H. unfold Place.candidates, Place.wordCounts, Place.allReviewText.
  now rewrite (lower_ascii _ H).
Qed.

(** * Further properties of the handlers *)

(** ** POST /api/upload, case by case *)

Lemma upload_cases env req d : Invariants.UploadCase env req d (Upload.upload env req d).
Proof.
  destruct (Upload.photo req) as [f|] eqn:Hf.
  - destruct (Upload.fileFilter f) eqn:Hfilter.
    + destruct (N.ltb_spec Upload.fileSizeLimit (N.of_nat (length (Upload.content f))))
        as [Hbig|Hsize].
      * unfold Upload.upload. rewrite Hf, Hfilter. cbn [negb].
        apply N.ltb_lt in Hbig as Hb. rewrite Hb. now apply (Invariants.TooLarge env req d f).
      * rewrite (upload_of_valid_image env req d f Hf Hfilter Hsize).
        destruct (falsy (Upload.place_id req)) eqn:Hpid.
        -- replace (Upload.handler env (Some (Upload.storedName env f)) req
                      (writeFile (Upload.storedName env f) (Upload.content f) d))
             with (Fail (A:=UploadRecord.t) 400 (lit "Missing place_id") None,
                   mkDisk (delete (Upload.storedName env f) (files d)) (metadata d)).
           { now apply (Invariants.NoPlace env req d f). }
           unfold Upload.handler, unlinkSync, writeFile. rewrite Hpid. cbn [files metadata].
           rewrite lookup_insert_eq. now rewrite delete_insert_eq.
        -- now apply (Invariants.Created env req d f).
    + unfold Upload.upload. rewrite Hf, Hfilter. now apply (Invariants.NotAnImage env req d f).
  - unfold Upload.upload. rewrite Hf. now apply Invariants.NoPhoto.
Qed.

(** What [readMetadata] returns after an upload. *)
Lemma stored_after_upload env req d :
  readMetadata (snd (Upload.upload env req d))
  = readMetadata d
    ++ match fst (Upload.upload env req d) with
       | Ok _ record => [record]
       | _ => []
       end.
Proof.
  destruct (upload_cases env req d) as [Hf|f Hf Hfilter|f Hf Hfilter Hbig
                                         |f Hf Hfilter Hsize Hpid|f Hf Hfilter Hsize Hpid];
    try (cbn [fst snd]; now rewrite app_nil_r).
  now rewrite (handler_record env _ req _ Hpid).
Qed.

(** X2.  An upload never removes or changes a stored record: what
    [readMetadata] returns afterwards is what it returned before,
    followed by the new record when the answer is 201 and by nothing
    otherwise. *)
Theorem upload_only_appends env req d :
  (exists record,
     fst (Upload.upload env req d) = Ok 201 record
     /\ readMetadata (snd (Upload.upload env req d)) = readMetadata d ++ [record])
  \/ (statusOf (fst (Upload.upload env req d)) <> 201%nat
      /\ metadata (snd (Upload.upload env req d)) = metadata d
      /\ readMetadata (snd (Upload.upload env req d)) = readMetadata d).
Proof.
  destruct (upload_cases env req d) as [Hf|f Hf Hfilter|f Hf Hfilter Hbig
                                         |f Hf Hfilter Hsize Hpid|f Hf Hfilter Hsize Hpid];
    try (right; cbn; repeat split; discriminate).
  left. rewrite (handler_record env _ req _ Hpid). eexists. split; reflexivity.
Qed.

Lemma wellFormed_new env name req d :
  falsy (Upload.place_id req) = false ->
  forall record d',
    Upload.handler env (Some name) req d = (Ok 201 record, d') ->
    Invariants.wellFormed record = true.
Proof.
  intros Hpid record d' H. rewrite (handler_record env name req d Hpid) in H.
  injection H as <- _. unfold Invariants.wellFormed. cbn.
  unfold Upload.uploads. rewrite streq_refl.
  destruct (Upload.place_id req) as [[|c p]|]; try discriminate. cbn.
  now destruct (fst (Upload.generateResizedVariants env name d)) as [e|[t p']].
Qed.

(** X3.  The store stays well formed: if every stored record has a
    non-empty [place_id], a [url] that is "/uploads/" followed by its
    file name, and a thumb exactly when it has a preview, the same holds
    after any upload request, whatever its outcome. *)
Theorem upload_keeps_store_well_formed env req d :
  forallb Invariants.wellFormed (readMetadata d) = true ->
  forallb Invariants.wellFormed (readMetadata (snd (Upload.upload env req d))) = true.
Proof.
  intros Hwf. rewrite stored_after_upload, forallb_app, Hwf. cbn [andb].
  destruct (upload_cases env req d) as [Hf|f Hf Hfilter|f Hf Hfilter Hbig
                                         |f Hf Hfilter Hsize Hpid|f Hf Hfilter Hsize Hpid];
    try reflexivity.
  rewrite (handler_record env _ req _ Hpid). cbn [fst forallb]. rewrite andb_true_r.
  exact (wellFormed_new env _ req _ Hpid _ _ (handler_record env _ req _ Hpid)).
Qed.

Lemma upload_keeps_store_well_formed_witness :
  forallb Invariants.wellFormed
    (readMetadata (mkDisk ∅ (Records [Sample.stored "u1" "p1" "Wonton"]))) = true
  /\ forallb Invariants.wellFormed
       (readMetadata
          (snd (Upload.upload (Sample.env false)
                  (Upload.mkRequest (Some Sample.image) (Some (lit "p1")) None None)
                  (mkDisk ∅ (Records [Sample.stored "u1" "p1" "Wonton"]))))) = true.
Proof.
  split; [reflexivity|].
  apply (upload_keeps_store_well_formed (Sample.env false)
           (Upload.mkRequest (Some Sample.image) (Some (lit "p1")) None None)
           (mkDisk ∅ (Records [Sample.stored "u1" "p1" "Wonton"]))).
  reflexivity.
Defined.

(** ** File names *)

Section FileNames.

Implicit Types (s b cur stem rest : list N).

Lemma splitLastDot_none b : ~ In 46 b -> Path.splitLastDot b = None.
Proof.
  induction b as [|c b IH]; intros H; [reflexivity|]. cbn [Path.splitLastDot].
  rewrite IH by (intros Hin; apply H; now right).
  destruct (N.eqb_spec c 46); [|reflexivity]. subst. exfalso. apply H. now left.
Qed.

Lemma splitLastDot_at_dot stem rest :
  ~ In 46 rest ->
  Path.splitLastDot (stem ++ 46 :: rest) = Some (stem, 46 :: rest).
Proof.
  intros H. induction stem as [|c stem IH]; cbn [app Path.splitLastDot].
  - now rewrite (splitLastDot_none rest H).
  - now rewrite IH.
Qed.

Lemma splitLastDot_none_inv b : Path.splitLastDot b = None -> ~ In 46 b.
Proof.
  induction b as [|c b IH]; intros H; [intros []|]. cbn [Path.splitLastDot] in H.
  destruct (Path.splitLastDot b) as [[pre ext]|]; [discriminate|].
  destruct (N.eqb_spec c 46); [discriminate|].
  intros [Hc|Hin]; [congruence | now apply IH].
Qed.

(** The extension [splitLastDot] finds is a dot followed by no dot, and
    the two parts make up the component. *)
Lemma splitLastDot_some b pre ext :
  Path.splitLastDot b = Some (pre, ext) ->
  b = pre ++ ext /\ exists rest, ext = 46 :: rest /\ ~ In 46 rest.
Proof.
  revert pre ext. induction b as [|c b IH]; intros pre ext H; [discriminate|].
  cbn [Path.splitLastDot] in H.
  destruct (Path.splitLastDot b) as [[pre' ext']|] eqn:E.
  - injection H as <- <-. destruct (IH pre' ext' eq_refl) as [-> Hext].
    split; [reflexivity | assumption].
  - destruct (N.eqb_spec c 46); [|discriminate]. injection H as <- <-. subst c.
    split; [reflexivity|]. exists b. split; [reflexivity|].
    now apply splitLastDot_none_inv.
Qed.

Lemma afterLastSlash_plain cur s :
  ~ In 47 s -> Path.afterLastSlash cur s = rev cur ++ s.
Proof.
  revert cur. induction s as [|c s IH]; intros cur H; cbn [Path.afterLastSlash].
  - now rewrite app_nil_r.
  - destruct (N.eqb_spec c 47); [subst; exfalso; apply H; now left|].
    rewrite IH by (intros Hin; apply H; now right).
    cbn [rev]. now rewrite <- app_assoc.
Qed.

Lemma afterLastSlash_no_slash cur s :
  ~ In 47 cur -> ~ In 47 (Path.afterLastSlash cur s).
Proof.
  revert cur. induction s as [|c s IH]; intros cur H; cbn [Path.afterLastSlash].
  - now rewrite <- in_rev.
  - destruct (N.eqb_spec c 47).
    + apply IH. intros [].
    + apply IH. intros [Hc|Hin]; [congruence | contradiction].
Qed.

Lemma dropSlashes_plain s : ~ In 47 s -> Path.dropSlashes s = s.
Proof.
  destruct s as [|c s]; [reflexivity|]. intros H. cbn [Path.dropSlashes].
  destruct (N.eqb_spec c 47); [subst; exfalso; apply H; now left | reflexivity].
Qed.

Lemma basename_plain s : ~ In 47 s -> Path.basename s = s.
Proof.
  intros H. unfold Path.basename.
  rewrite dropSlashes_plain by now rewrite <- in_rev.
  rewrite rev_involutive. now apply afterLastSlash_plain.
Qed.

(** An extension is empty, or one dot followed by neither a dot nor a
    slash. *)
Lemma extname_shape p :
  Path.extname p = []
  \/ exists rest, Path.extname p = 46 :: rest /\ ~ In 46 rest /\ ~ In 47 rest.
Proof.
  unfold Path.extname.
  destruct (Path.splitLastDot (Path.basename p)) as [[pre ext]|] eqn:E; [|now left].
  destruct (negb (truthy pre)); [now left|].
  destruct (streq (Path.basename p) (lit "..")); [now left|]. right.
  destruct (splitLastDot_some _ _ _ E) as [Hb (rest & -> & Hdot)].
  exists rest. split; [reflexivity|]. split; [assumption|].
  intros Hin. apply (afterLastSlash_no_slash [] (rev (Path.dropSlashes (rev p)))).
  - intros [].
  - fold (Path.basename p). rewrite Hb. apply in_or_app. right. now right.
Qed.

Lemma storedName_shape env f :
  exists rest,
    Upload.storedName env f = Upload.fileUuid env ++ 46 :: rest
    /\ ~ In 46 rest /\ ~ In 47 rest.
Proof.
  unfold Upload.storedName.
  destruct (extname_shape (Upload.originalname f)) as [->|(rest & -> & Hd & Hs)].
  - exists (lit "jpg"). split; [reflexivity|].
    split; vm_compute; intuition discriminate.
  - exists rest. auto.
Qed.

Lemma stem_iff stem :
  Invariants.stem stem = true <-> stem <> [] /\ ~ In 46 stem /\ ~ In 47 stem.
Proof.
  unfold Invariants.stem. rewrite andb_true_iff, forallb_forall. split.
  - intros [Ht Hall]. split; [now destruct stem|]. split; intros Hin;
      apply Hall in Hin; vm_compute in Hin; discriminate.
  - intros (Hne & Hd & Hs). split; [now destruct stem|].
    intros c Hc. destruct (N.eqb_spec c 46); [subst; contradiction|].
    destruct (N.eqb_spec c 47); [subst; contradiction | reflexivity].
Qed.

Lemma parseName_stem stem rest :
  Invariants.stem stem = true -> ~ In 46 rest -> ~ In 47 rest ->
  Path.parseName (stem ++ 46 :: rest) = stem.
Proof.
  intros Hstem Hd Hs. apply stem_iff in Hstem as (Hne & Hsd & Hss).
  unfold Path.parseName. rewrite basename_plain.
  - rewrite splitLastDot_at_dot by assumption.
    destruct stem as [|c stem]; [contradiction|]. cbn [truthy negb].
    destruct (streq ((c :: stem) ++ 46 :: rest) (lit "..")) eqn:E; [|reflexivity].
    apply streq_iff in E. injection E as -> _. exfalso. apply Hsd. now left.
  - intros Hin. apply in_app_or in Hin as [Hin|[Hin|Hin]];
      [contradiction | discriminate | contradiction].
Qed.

End FileNames.

(** X4.  As the header of the server says, the variants of an upload are
    named after its identifier: when [uuidv4] returns a non-empty string
    without dot or slash, the original is stored as that string followed
    by an extension (a dot and neither dot nor slash after it), the
    thumb as the string followed by "_thumb.jpg" and the preview as the
    string followed by "_preview.jpg". *)
Theorem variants_are_named_after_the_uuid env f :
  Invariants.stem (Upload.fileUuid env) = true ->
  (exists rest,
     Upload.storedName env f = Upload.fileUuid env ++ 46 :: rest
     /\ ~ In 46 rest /\ ~ In 47 rest)
  /\ Upload.thumbName (Upload.storedName env f)
     = Upload.fileUuid env ++ lit "_thumb.jpg"
  /\ Upload.previewName (Upload.storedName env f)
     = Upload.fileUuid env ++ lit "_preview.jpg".
Proof.
  intros Hstem. destruct (storedName_shape env f) as (rest & Hname & Hd & Hs).
  split; [eauto|]. unfold Upload.thumbName, Upload.previewName.
  rewrite Hname, parseName_stem by assumption. split; reflexivity.
Qed.

Lemma variants_are_named_after_the_uuid_witness :
  Invariants.stem (Upload.fileUuid (Sample.env true)) = true
  /\ Upload.thumbName (Upload.storedName (Sample.env true) Sample.image)
     = Upload.fileUuid (Sample.env true) ++ lit "_thumb.jpg".
Proof.
  split; [reflexivity|].
  apply (variants_are_named_after_the_uuid (Sample.env true) Sample.image).
  reflexivity.
Defined.

(** ** Media files after an upload *)

(** [generateResizedVariants] on a file that is there. *)
Lemma variants_of_present_file env name d img :
  files d !! name = Some img ->
  files (snd (Upload.generateResizedVariants env name d))
  = match Upload.sharp env img 400 80, Upload.sharp env img 160 75 with
    | Some t, Some p =>
        <[Upload.previewName name := p]> (<[Upload.thumbName name := t]> (files d))
    | Some t, None => <[Upload.thumbName name := t]> (files d)
    | None, _ => files d
    end
  /\ fst (Upload.generateResizedVariants env name d)
     = match Upload.sharp env img 400 80, Upload.sharp env img 160 75 with
       | Some t, Some p => Return (Upload.thumbName name, Upload.previewName name)
       | Some t, None =>
           Thrown (Some (lit "Input file contains unsupported image format"))
       | None, _ => Thrown (Some (lit "Input file contains unsupported image format"))
       end.
Proof.
  intros H. unfold Upload.generateResizedVariants. rewrite H.
  destruct (Upload.sharp env img 400 80); [|now split].
  destruct (Upload.sharp env img 160 75); now split.
Qed.

Lemma thumb_is_not_preview name : Upload.thumbName name <> Upload.previewName name.
Proof.
  unfold Upload.thumbName, Upload.previewName. intros H.
  apply app_inv_head in H. vm_compute in H. discriminate.
Qed.

(** The disk after an upload that passed validation. *)
Lemma files_after_valid_upload env req d f :
  Upload.photo req = Some f ->
  Upload.fileFilter f = true ->
  N.of_nat (length (Upload.content f)) <= Upload.fileSizeLimit ->
  falsy (Upload.place_id req) = false ->
  files (snd (Upload.upload env req d))
  = files (snd (Upload.generateResizedVariants env (Upload.storedName env f)
                  (writeFile (Upload.storedName env f) (Upload.content f) d)))
  /\ exists record,
       fst (Upload.upload env req d) = Ok 201 record
       /\ UploadRecord.thumb_url record
          = match fst (Upload.generateResizedVariants env (Upload.storedName env f)
                         (writeFile (Upload.storedName env f) (Upload.content f) d)) with
            | Return (t, _) => Some (Upload.uploads t)
            | Thrown _ => None
            end
       /\ UploadRecord.preview_url record
          = match fst (Upload.generateResizedVariants env (Upload.storedName env f)
                         (writeFile (Upload.storedName env f) (Upload.content f) d)) with
            | Return (_, p) => Some (Upload.uploads p)
            | Thrown _ => None
            end.
Proof.
  intros Hf Hfilter Hsize Hpid.
  rewrite (upload_of_valid_image env req d f Hf Hfilter Hsize).
  rewrite (handler_record env _ req _ Hpid). cbn [fst snd files].
  split; [reflexivity|]. eexists. split; [reflexivity|]. split; reflexivity.
Qed.

(** X5.  "Original remains": after an upload that passed validation the
    uploaded bytes are on disk under the stored name, whether or not the
    variants could be generated (the identifier is assumed to be a
    non-empty string without dot or slash, as [uuidv4] returns). *)
Theorem original_remains_after_upload env req d f :
  Upload.photo req = Some f ->
  Upload.fileFilter f = true ->
  N.of_nat (length (Upload.content f)) <= Upload.fileSizeLimit ->
  falsy (Upload.place_id req) = false ->
  Invariants.stem (Upload.fileUuid env) = true ->
  files (snd (Upload.upload env req d)) !! Upload.storedName env f
  = Some (Upload.content f).
Proof.
  intros Hf Hfilter Hsize Hpid Hstem.
  destruct (files_after_valid_upload env req d f Hf Hfilter Hsize Hpid) as [-> _].
  destruct (storedName_shape env f) as (rest & Hname & Hdot & Hslash).
  assert (Hthumb : Upload.thumbName (Upload.storedName env f)
                   = Upload.fileUuid env ++ lit "_thumb.jpg").
  { unfold Upload.thumbName. now rewrite Hname, parseName_stem. }
  assert (Hpreview : Upload.previewName (Upload.storedName env f)
                     = Upload.fileUuid env ++ lit "_preview.jpg").
  { unfold Upload.previewName. now rewrite Hname, parseName_stem. }
  assert (Hnt : Upload.thumbName (Upload.storedName env f) <> Upload.storedName env f).
  { rewrite Hthumb, Hname. intros H. apply app_inv_head in H. discriminate. }
  assert (Hnp : Upload.previewName (Upload.storedName env f) <> Upload.storedName env f).
  { rewrite Hpreview, Hname. intros H. apply app_inv_head in H. discriminate. }
  destruct (variants_of_present_file env (Upload.storedName env f)
              (writeFile (Upload.storedName env f) (Upload.content f) d)
              (Upload.content f)) as [-> _].
  { cbn [writeFile files]. apply lookup_insert_eq. }
  cbn [writeFile files].
  destruct (Upload.sharp env (Upload.content f) 400 80);
    [destruct (Upload.sharp env (Upload.content f) 160 75)|];
    rewrite ?lookup_insert_ne by assumption; apply lookup_insert_eq.
Qed.

Lemma original_remains_after_upload_witness :
  Invariants.stem (Upload.fileUuid (Sample.env false)) = true
  /\ files (snd (Upload.upload (Sample.env false)
                   (Upload.mkRequest (Some Sample.image) (Some (lit "p1")) None None)
                   Sample.emptyDisk))
       !! Upload.storedName (Sample.env false) Sample.image
     = Some (Upload.content Sample.image).
Proof.
  split; [reflexivity|].
  apply (original_remains_after_upload (Sample.env false)
           (Upload.mkRequest (Some Sample.image) (Some (lit "p1")) None None)
           Sample.emptyDisk Sample.image).
  - reflexivity.
  - reflexivity.
  - unfold Upload.fileSizeLimit. simpl. lia.
  - reflexivity.
  - reflexivity.
Defined.

(** X6.  A record never points at a variant that is not there: when the
    record of an upload has a thumb reference, that reference and the
    preview reference are "/uploads/" followed by the variant names, and
    both files are on disk with what the encoder produced at width 400,
    quality 80 and at width 160, quality 75. *)
Theorem referenced_variants_are_on_disk env req d f record u :
  Upload.photo req = Some f ->
  Upload.fileFilter f = true ->
  N.of_nat (length (Upload.content f)) <= Upload.fileSizeLimit ->
  falsy (Upload.place_id req) = false ->
  fst (Upload.upload env req d) = Ok 201 record ->
  UploadRecord.thumb_url record = Some u ->
  u = lit "/uploads/" ++ Upload.thumbName (Upload.storedName env f)
  /\ UploadRecord.preview_url record
     = Some (lit "/uploads/" ++ Upload.previewName (Upload.storedName env f))
  /\ is_Some (files (snd (Upload.upload env req d))
                !! Upload.thumbName (Upload.storedName env f))
  /\ files (snd (Upload.upload env req d)) !! Upload.thumbName (Upload.storedName env f)
     = Upload.sharp env (Upload.content f) 400 80
  /\ files (snd (Upload.upload env req d)) !! Upload.previewName (Upload.storedName env f)
     = Upload.sharp env (Upload.content f) 160 75.
Proof.
  intros Hf Hfilter Hsize Hpid Hok Hthumb.
  destruct (files_after_valid_upload env req d f Hf Hfilter Hsize Hpid)
    as [-> (record' & Hok' & Ht & Hp)].
  assert (record' = record) by congruence. subst record'.
  rewrite Ht in Hthumb. rewrite Hp. clear Ht Hp Hok Hok'.
  destruct (variants_of_present_file env (Upload.storedName env f)
              (writeFile (Upload.storedName env f) (Upload.content f) d)
              (Upload.content f)) as [-> Hfst].
  { cbn [writeFile files]. apply lookup_insert_eq. }
  rewrite Hfst in *. clear Hfst.
  destruct (Upload.sharp env (Upload.content f) 400 80) as [t|]; [|discriminate].
  destruct (Upload.sharp env (Upload.content f) 160 75) as [p|]; [|discriminate].
  injection Hthumb as <-.
  rewrite lookup_insert_eq.
  rewrite lookup_insert_ne by (intros H; symmetry in H; now apply thumb_is_not_preview in H).
  rewrite lookup_insert_eq. unfold Upload.uploads. repeat split. eauto.
Qed.

Lemma referenced_variants_are_on_disk_witness :
  exists record,
    fst (Upload.upload (Sample.env true)
           (Upload.mkRequest (Some Sample.image) (Some (lit "p1")) None None)
           Sample.emptyDisk) = Ok 201 record
    /\ UploadRecord.thumb_url record = Some (lit "/uploads/0a1b_thumb.jpg")
    /\ is_Some (files (snd (Upload.upload (Sample.env true)
                   (Upload.mkRequest (Some Sample.image) (Some (lit "p1")) None None)
                   Sample.emptyDisk))
                 !! Upload.thumbName (Upload.storedName (Sample.env true) Sample.image)).
Proof.
  eexists. split; [reflexivity|]. split; [reflexivity|].
  eapply (referenced_variants_are_on_disk (Sample.env true)
            (Upload.mkRequest (Some Sample.image) (Some (lit "p1")) None None)
            Sample.emptyDisk Sample.image).
  - reflexivity.
  - reflexivity.
  - unfold Upload.fileSizeLimit. simpl. lia.
  - reflexivity.
  - reflexivity.
  - reflexivity.
Defined.

(** X7.  A thumb can be left behind: when the encoder produces the thumb
    and then throws on the preview, the upload is still answered 201,
    the record has neither reference, and the thumb file stays on
    disk. *)
Theorem thumb_is_orphaned_when_preview_fails env req d f t :
  Upload.photo req = Some f ->
  Upload.fileFilter f = true ->
  N.of_nat (length (Upload.content f)) <= Upload.fileSizeLimit ->
  falsy (Upload.place_id req) = false ->
  Upload.sharp env (Upload.content f) 400 80 = Some t ->
  Upload.sharp env (Upload.content f) 160 75 = None ->
  exists record,
    fst (Upload.upload env req d) = Ok 201 record
    /\ UploadRecord.thumb_url record = None
    /\ UploadRecord.preview_url record = None
    /\ files (snd (Upload.upload env req d)) !! Upload.thumbName (Upload.storedName env f)
       = Some t.
Proof.
  intros Hf Hfilter Hsize Hpid Hthumb Hpreview.
  destruct (files_after_valid_upload env req d f Hf Hfilter Hsize Hpid)
    as [-> (record & Hok & Ht & Hp)].
  destruct (variants_of_present_file env (Upload.storedName env f)
              (writeFile (Upload.storedName env f) (Upload.content f) d)
              (Upload.content f)) as [-> Hfst].
  { cbn [writeFile files]. apply lookup_insert_eq. }
  rewrite Hfst, Hthumb, Hpreview in *.
  exists record. repeat split; try assumption. apply lookup_insert_eq.
Qed.

Lemma thumb_is_orphaned_when_preview_fails_witness :
  exists record,
    fst (Upload.upload
           (Upload.mkEnv (lit "0a1b") (lit "2c3d") (lit "2024-01-01T00:00:00.000Z")
              (fun img width _ => if width =? 400 then Some img else None))
           (Upload.mkRequest (Some Sample.image) (Some (lit "p1")) None None)
           Sample.emptyDisk) = Ok 201 record
    /\ UploadRecord.thumb_url record = None
    /\ UploadRecord.preview_url record = None
    /\ files (snd (Upload.upload
           (Upload.mkEnv (lit "0a1b") (lit "2c3d") (lit "2024-01-01T00:00:00.000Z")
              (fun img width _ => if width =? 400 then Some img else None))
           (Upload.mkRequest (Some Sample.image) (Some (lit "p1")) None None)
           Sample.emptyDisk))
         !! Upload.thumbName
              (Upload.storedName
                 (Upload.mkEnv (lit "0a1b") (lit "2c3d") (lit "2024-01-01T00:00:00.000Z")
                    (fun img width _ => if width =? 400 then Some img else None))
                 Sample.image)
       = Some (Upload.content Sample.image).
Proof.
  apply (thumb_is_orphaned_when_preview_fails
           (Upload.mkEnv (lit "0a1b") (lit "2c3d") (lit "2024-01-01T00:00:00.000Z")
              (fun img width _ => if width =? 400 then Some img else None))
           (Upload.mkRequest (Some Sample.image) (Some (lit "p1")) None None)
           Sample.emptyDisk Sample.image).
  - reflexivity.
  - reflexivity.
  - unfold Upload.fileSizeLimit. simpl. lia.
  - reflexivity.
  - reflexivity.
  - reflexivity.
Defined.

(** ** From upload to place detail *)

(** X8.  Round trip through the store: right after an upload that passed
    validation, the place detail of the same [place_id] lists what it
    listed before followed by the new photo, provided the photo's dish
    passes the term filter; with no terms it is always listed.  This
    holds whatever the case tables of the engine are. *)
Theorem uploaded_photo_is_listed {table : CaseTable} env req d f gw raw body body' :
  Upload.photo req = Some f ->
  Upload.fileFilter f = true ->
  N.of_nat (length (Upload.content f)) < Upload.fileSizeLimit ->
  falsy (Upload.place_id req) = false ->
  Place.place gw d (Upload.place_id req) raw = Ok 200 body ->
  Place.place gw (snd (Upload.upload env req d)) (Upload.place_id req) raw = Ok 200 body' ->
  exists record,
    fst (Upload.upload env req d) = Ok 201 record
    /\ Place.userPhotos body'
       = Place.userPhotos body
         ++ (if Place.matchesDish (Place.parseTerms raw) record
             then [Place.projectUpload record] else [])
    /\ (Place.parseTerms raw = [] ->
        Place.userPhotos body' = Place.userPhotos body ++ [Place.projectUpload record])
    /\ Place.dish (Place.projectUpload record)
       = match Upload.dish req with Some s => s | None => [] end.
Proof.
  intros Hf Hfilter Hsize Hpid Hbefore Hafter. apply N.lt_le_incl in Hsize.
  apply place_ok in Hbefore as (id & r1 & Hid & _ & _ & _ & _ & _ & _ & Hu).
  apply place_ok in Hafter as (id' & r2 & Hid' & _ & _ & _ & _ & _ & _ & Hu').
  assert (id' = id) by congruence. subst id'.
  rewrite (upload_of_valid_image env req d f Hf Hfilter Hsize) in *.
  rewrite (handler_record env _ req _ Hpid) in *. cbn [fst snd] in *.
  eexists. split; [reflexivity|].
  match goal with
  | |- ?A /\ _ => assert (Hmain : A)
  end.
  { rewrite Hu, Hu'. unfold Place.userPhotosOf.
    unfold readMetadata at 1. cbn [parseMetadata metadata].
    change (readMetadata (writeFile (Upload.storedName env f) (Upload.content f) d))
      with (readMetadata d).
    rewrite !List.filter_app, map_app. cbn [List.filter UploadRecord.place_id].
    rewrite Hid. cbn [splice]. rewrite streq_refl. cbn [List.filter].
    now destruct (Place.matchesDish (Place.parseTerms raw) _). }
  split; [exact Hmain|]. split.
  - intros Hnil. rewrite Hmain, Hnil. reflexivity.
  - cbn. now destruct (Upload.dish req) as [[|c s0]|].
Qed.

Lemma uploaded_photo_is_listed_witness :
  exists body body',
    Place.place (table := Sample.ascii) (Sample.provider [] (fun _ => Return (Sample.withReviews [])))
      Sample.emptyDisk (Some (lit "p1")) (Some (lit "wonton")) = Ok 200 body
    /\ Place.place (table := Sample.ascii) (Sample.provider [] (fun _ => Return (Sample.withReviews [])))
         (snd (Upload.upload (Sample.env true)
                 (Upload.mkRequest (Some Sample.image) (Some (lit "p1"))
                    (Some (lit "Wonton noodles")) None)
                 Sample.emptyDisk))
         (Some (lit "p1")) (Some (lit "wonton")) = Ok 200 body'
    /\ List.map Place.dish (Place.userPhotos body') = [lit "Wonton noodles"]
    /\ exists record,
         fst (Upload.upload (Sample.env true)
                (Upload.mkRequest (Some Sample.image) (Some (lit "p1"))
                   (Some (lit "Wonton noodles")) None)
                Sample.emptyDisk) = Ok 201 record
         /\ Place.userPhotos body'
            = Place.userPhotos body
              ++ (if Place.matchesDish (table := Sample.ascii)
                     (Place.parseTerms (table := Sample.ascii) (Some (lit "wonton")))
                     record
                  then [Place.projectUpload record] else [])
         /\ (Place.parseTerms (table := Sample.ascii) (Some (lit "wonton")) = [] ->
             Place.userPhotos body' = Place.userPhotos body ++ [Place.projectUpload record])
         /\ Place.dish (Place.projectUpload record)
            = match Upload.dish (Upload.mkRequest (Some Sample.image) (Some (lit "p1"))
                                   (Some (lit "Wonton noodles")) None) with
              | Some s => s | None => [] end.
Proof.
  eexists. eexists. split; [reflexivity|]. split; [reflexivity|].
  split; [reflexivity|].
  eapply (uploaded_photo_is_listed (table := Sample.ascii) (Sample.env true)
            (Upload.mkRequest (Some Sample.image) (Some (lit "p1"))
               (Some (lit "Wonton noodles")) None)
            Sample.emptyDisk Sample.image
            (Sample.provider [] (fun _ => Return (Sample.withReviews [])))
            (Some (lit "wonton"))).
  - reflexivity.
  - reflexivity.
  - unfold Upload.fileSizeLimit. simpl. lia.
  - reflexivity.
  - reflexivity.
  - reflexivity.
Defined.

(** X9.  The upload form of the client never meets the server's "Missing
    place_id": for a chosen image of at most 12 MiB and a place whose
    [place_id] is not the empty string, the posted form is answered 201
    and the record carries what was typed.  A place without [place_id]
    is filed under the word "undefined". *)
Theorem client_upload_is_created env d place f dishInput uploaderInput :
  Upload.fileFilter f = true ->
  N.of_nat (length (Upload.content f)) <= Upload.fileSizeLimit ->
  Search.place_id place <> Some [] ->
  exists req record,
    Client.handleUpload place (Some f) dishInput uploaderInput = Some req
    /\ fst (Upload.upload env req d) = Ok 201 record
    /\ UploadRecord.place_id record
       = match Search.place_id place with Some id => id | None => lit "undefined" end
    /\ UploadRecord.dish record = dishInput
    /\ UploadRecord.uploader_name record = uploaderInput.
Proof.
  intros Hfilter Hsize Hid.
  set (req := Upload.mkRequest (Some f) (Some (splice (Search.place_id place)))
                (if truthy dishInput then Some dishInput else None)
                (if truthy uploaderInput then Some uploaderInput else None)).
  exists req. eexists. split; [reflexivity|].
  assert (Hpid : falsy (Upload.place_id req) = false).
  { cbn. destruct (Search.place_id place) as [[|c id]|]; [congruence| |]; reflexivity. }
  rewrite (upload_of_valid_image env req d f eq_refl Hfilter Hsize).
  rewrite (handler_record env _ req _ Hpid). cbn [fst]. split; [reflexivity|].
  cbn. split; [now destruct (Search.place_id place)|].
  split; [now destruct dishInput | now destruct uploaderInput].
Qed.

Lemma client_upload_is_created_witness :
  exists req record,
    Client.handleUpload
      (Search.mkSummary None None None None None None [])
      (Some Sample.image) (lit "Wonton") [] = Some req
    /\ fst (Upload.upload (Sample.env true) req Sample.emptyDisk) = Ok 201 record
    /\ UploadRecord.place_id record = lit "undefined"
    /\ UploadRecord.dish record = lit "Wonton"
    /\ UploadRecord.uploader_name record = [].
Proof.
  apply (client_upload_is_created (Sample.env true) Sample.emptyDisk
           (Search.mkSummary None None None None None None [])
           Sample.image (lit "Wonton") []).
  - reflexivity.
  - unfold Upload.fileSizeLimit. simpl. lia.
  - discriminate.
Defined.

(** ** More on GET /api/search *)

Lemma search_400_iff gw d raw :
  statusOf (fst (Search.search gw d raw)) = 400%nat <-> Search.parseTerms raw = [].
Proof.
  unfold Search.search. destruct (Search.parseTerms raw) as [|t terms].
  - split; reflexivity.
  - split; [|discriminate]. destruct (textSearch gw _); [discriminate|].
    destruct (promiseAll _); discriminate.
Qed.

(** X10.  Fan-out bound: a search issues at most 21 provider calls, one
    text search and at most 20 detail fetches.  It issues none exactly
    when the [terms] parameter is not a string (the handler throws and
    answers 500) or no term is left after cleaning; it answers 400
    exactly in the second case. *)
Theorem search_issues_at_most_21_calls gw d terms :
  (length (snd (Search.route gw d terms)) <= 21)%nat
  /\ (snd (Search.route gw d terms) = []
      <-> terms = Search.Structured \/ Search.parseTerms (Search.textOf terms) = [])
  /\ (statusOf (fst (Search.route gw d terms)) = 400%nat
      <-> terms <> Search.Structured /\ Search.parseTerms (Search.textOf terms) = [])
  /\ (terms = Search.Structured ->
      statusOf (fst (Search.route gw d terms)) = 500%nat).
Proof.
  assert (Hsearch : forall raw,
             (length (snd (Search.search gw d raw)) <= 21)%nat
             /\ (snd (Search.search gw d raw) = [] <-> Search.parseTerms raw = [])
             /\ (statusOf (fst (Search.search gw d raw)) = 400%nat
                 <-> Search.parseTerms raw = [])).
  { intros raw. rewrite search_terms_are_term_list.
    destruct (Spec.termList raw) as [|t ts] eqn:Ht.
    { unfold Search.search. rewrite search_terms_are_term_list, Ht. cbn.
      split; [lia|]. split; split; reflexivity. }
    destruct (textSearch gw (Search.buildQuery (t :: ts))) as [e0|data] eqn:Hs.
    { unfold Search.search. rewrite search_terms_are_term_list, Ht, Hs. cbn.
      split; [lia|]. split; split; discriminate. }
    rewrite (search_after_text_search gw d raw t ts data Ht Hs). cbn [fst snd].
    split; [|split; split; try discriminate].
    - cbn [length]. rewrite length_mapFrom, length_firstn. lia.
    - destruct (promiseAll _); cbn; discriminate. }
  destruct terms as [|s|]; cbn [Search.route Search.textOf].
  - destruct (Hsearch None) as (Hlen & Hcalls & H400).
    split; [exact Hlen|]. split; [|split; [|discriminate]].
    + rewrite Hcalls. split; [auto | intros [?|?]; [discriminate | assumption]].
    + rewrite H400. split; [intros H; split; [discriminate | exact H] | tauto].
  - destruct (Hsearch (Some s)) as (Hlen & Hcalls & H400).
    split; [exact Hlen|]. split; [|split; [|discriminate]].
    + rewrite Hcalls. split; [auto | intros [?|?]; [discriminate | assumption]].
    + rewrite H400. split; [intros H; split; [discriminate | exact H] | tauto].
  - cbn. split; [lia|]. split; [tauto|]. split; [|reflexivity].
    split; [discriminate | intros [H _]; now destruct H].
Qed.

(** The results of a search that answered, one by one. *)
Lemma search_ok_results gw d raw status body :
  fst (Search.search gw d raw) = Ok status body ->
  exists data,
    textSearch gw (Search.buildQuery (Search.parseTerms raw)) = Return data
    /\ forall i,
         match nth_error (firstn 20 (match data with Some l => l | None => [] end)) i with
         | Some p =>
             exists result,
               outcome (details gw i (Places.place_id p) Search.searchFields)
               = Return result
               /\ nth_error (Search.results body) i = Some (Search.summarize d p result)
         | None => nth_error (Search.results body) i = None
         end.
Proof.
  intros H. rewrite search_terms_are_term_list.
  destruct (Spec.termList raw) as [|t terms] eqn:Ht.
  { unfold Search.search in H. rewrite search_terms_are_term_list, Ht in H. discriminate. }
  destruct (textSearch gw (Search.buildQuery (t :: terms))) as [e0|data] eqn:Hs.
  { unfold Search.search in H. rewrite search_terms_are_term_list, Ht, Hs in H.
    discriminate. }
  rewrite (search_after_text_search gw d raw t terms data Ht Hs) in H. cbn [fst] in H.
  exists data. split; [reflexivity|].
  set (limited := firstn 20 (match data with Some l => l | None => [] end)) in *.
  unfold promiseAll in H.
  destruct (firstRejection (mapFrom 0 (Search.detailsPromise gw d) limited))
    as [[t0 e0]|] eqn:Hr; [discriminate|].
  injection H as <- <-. cbn [Search.results].
  destruct (fulfilled_nth _ Hr) as [Hlen Hnth]. rewrite length_mapFrom in Hlen.
  intros i. destruct (nth_error limited i) as [p|] eqn:Hp.
  - destruct (Hnth i (Search.detailsPromise gw d i p)) as (a & Ha & Hn).
    { now rewrite nth_mapFrom, Hp. }
    unfold Search.detailsPromise in Ha. cbn [outcome] in Ha.
    destruct (outcome (details gw i (Places.place_id p) Search.searchFields))
      as [e|result]; [discriminate|].
    exists result. split; [reflexivity|]. congruence.
  - apply nth_error_None. apply nth_error_None in Hp. lia.
Qed.




(** [arr.find] returns the first element that passes. *)
Lemma find_first {A} (f : A -> bool) l x :
  List.find f l = Some x
  <-> exists before after,
        l = before ++ x :: after /\ f x = true
        /\ forall y, In y before -> f y = false.
Proof.
  split.
  - induction l as [|a l IH]; [discriminate|]. cbn [List.find].
    destruct (f a) eqn:Ha.
    + intros [= <-]. exists [], l. repeat split; [assumption | intros y []].
    + intros H. destruct (IH H) as (before & after & -> & Hx & Hb).
      exists (a :: before), after. repeat split; [assumption|].
      intros y [<-|Hy]; auto.
  - intros (before & after & -> & Hx & Hb).
    induction before as [|a before IH]; cbn [app List.find].
    + now rewrite Hx.
    + rewrite (Hb a) by now left. apply IH. intros y Hy. apply Hb. now right.
Qed.

Lemma thumbFor_iff id m :
  (match id with
   | Some s => streq (UploadRecord.place_id m) s
   | None => false
   end
   && match UploadRecord.thumb_url m with
      | Some u => truthy u
      | None => false
      end) = true
  <-> Invariants.thumbFor id m.
Proof.
  unfold Invariants.thumbFor. rewrite andb_true_iff. split.
  - intros [Hid Hthumb]. split.
    + destruct id as [s|]; [|discriminate]. apply streq_iff in Hid. now subst.
    + destruct (UploadRecord.thumb_url m) as [[|c u]|]; try discriminate.
      eexists. split; [reflexivity | discriminate].
  - intros [<- (u & -> & Hu)]. split; [apply streq_refl | now destruct u].
Qed.

(** X12.  Thumbnail of a search result.  When the details carry photos,
    the thumbnail is the proxied first photo at width 400 and the store
    is not consulted.  Otherwise it is the thumb of the first record, in
    store order, that belongs to the result's place and has a thumb; it
    is absent exactly when the store has no such record. *)
Theorem thumbnail_resolution d p result :
  let details := match result with Some r => r | None => emptyPlace end in
  let r := Search.summarize d p result in
  (forall ph rest,
     Places.photos details = Some (ph :: rest) ->
     Search.thumbnail r
     = Some (lit "/api/photo?photoreference=" ++ splice (Places.photo_reference ph)
             ++ lit "&maxwidth=400"))
  /\ (Places.photos details = None \/ Places.photos details = Some [] ->
      (forall u,
         Search.thumbnail r = Some u
         <-> exists before m after,
               readMetadata d = before ++ m :: after
               /\ Invariants.thumbFor (Search.place_id r) m
               /\ UploadRecord.thumb_url m = Some u
               /\ forall m', In m' before -> ~ Invariants.thumbFor (Search.place_id r) m')
      /\ (Search.thumbnail r = None
          <-> forall m, In m (readMetadata d) -> ~ Invariants.thumbFor (Search.place_id r) m)).
Proof.
  intros details r. split.
  - intros ph rest Hph. subst r. unfold Search.summarize. fold details.
    cbn [Search.thumbnail]. rewrite Hph. reflexivity.
  - intros Hnone.
    set (id := Search.place_id r).
    assert (Hthumb : Search.thumbnail r
                     = match Search.findUserThumb (readMetadata d) id with
                       | Some m => UploadRecord.thumb_url m
                       | None => None
                       end).
    { subst r id. unfold Search.summarize. fold details. cbn [Search.thumbnail Search.place_id].
      destruct Hnone as [-> | ->]; reflexivity. }
    rewrite Hthumb. unfold Search.findUserThumb. split.
    + intros u. split.
      * destruct (List.find _ _) as [m|] eqn:Hfind; [|discriminate].
        intros Hu. apply find_first in Hfind as (before & after & Hsplit & Hm & Hb).
        exists before, m, after. split; [assumption|].
        split; [now apply thumbFor_iff|]. split; [assumption|].
        intros m' Hin Hfor. apply thumbFor_iff in Hfor. rewrite (Hb m' Hin) in Hfor.
        discriminate.
      * intros (before & m & after & Hsplit & Hm & Hu & Hb).
        assert (Hfind : List.find
                          (fun m => match id with
                                    | Some s => streq (UploadRecord.place_id m) s
                                    | None => false
                                    end
                                    && match UploadRecord.thumb_url m with
                                       | Some u => truthy u
                                       | None => false
                                       end) (readMetadata d) = Some m).
        { apply find_first. exists before, after. split; [assumption|].
          split; [now apply thumbFor_iff|].
          intros y Hy. destruct (_ && _) eqn:E; [|reflexivity].
          apply thumbFor_iff in E. now apply Hb in E. }
        now rewrite Hfind.
    + split.
      * destruct (List.find _ _) as [m|] eqn:Hfind.
        -- intros Hn. apply find_some in Hfind as [_ Hm]. apply thumbFor_iff in Hm.
           destruct Hm as [_ (u & Hu & _)]. congruence.
        -- intros _ m Hin Hfor. apply thumbFor_iff in Hfor.
           now rewrite (find_none _ _ Hfind m Hin) in Hfor.
      * intros Hall. destruct (List.find _ _) as [m|] eqn:Hfind; [|reflexivity].
        apply find_some in Hfind as [Hin Hm]. apply thumbFor_iff in Hm.
        now apply Hall in Hm.
Qed.

(** X13.  What a failed fan-out reports: when the text search answered
    and the search still answers 500, the [details] of the error are
    the message of a detail fetch that was refused, and no refused
    detail fetch of this search settled before that one. *)
Theorem search_failure_reports_first_rejection gw d raw data e :
  (0 < length (Search.parseTerms raw))%nat ->
  textSearch gw (Search.buildQuery (Search.parseTerms raw)) = Return data ->
  fst (Search.search gw d raw) = Fail 500 (lit "Search failed") e ->
  exists n p,
    nth_error (firstn 20 (match data with Some l => l | None => [] end)) n = Some p
    /\ outcome (details gw n (Places.place_id p) Search.searchFields) = Thrown e
    /\ forall m q e',
         nth_error (firstn 20 (match data with Some l => l | None => [] end)) m = Some q ->
         outcome (details gw m (Places.place_id q) Search.searchFields) = Thrown e' ->
         (settledAt (details gw n (Places.place_id p) Search.searchFields)
          <= settledAt (details gw m (Places.place_id q) Search.searchFields))%nat.
Proof.
  rewrite search_terms_are_term_list. intros Hne Hs H.
  destruct (Spec.termList raw) as [|t terms] eqn:Ht; [cbn in Hne; lia|].
  rewrite (search_after_text_search gw d raw t terms data Ht Hs) in H. cbn [fst] in H.
  set (limited := firstn 20 (match data with Some l => l | None => [] end)) in *.
  unfold promiseAll in H.
  destruct (firstRejection (mapFrom 0 (Search.detailsPromise gw d) limited))
    as [[t0 e0]|] eqn:Hr; [|discriminate].
  injection H as ->.
  destruct (firstRejection_Some _ _ _ Hr) as [(pr & Hin & Hout & Hat) Hmin].
  apply In_mapFrom in Hin as (n & p & Hp & ->). cbn [Nat.add] in *.
  unfold Search.detailsPromise in Hout, Hat. cbn [outcome settledAt] in Hout, Hat.
  exists n, p. split; [assumption|]. split.
  - destruct (outcome (details gw n (Places.place_id p) Search.searchFields));
      congruence.
  - intros m q e' Hq Hthrown. rewrite Hat.
    apply (Hmin (Search.detailsPromise gw d m q) e').
    + apply (nth_error_In _ m). now rewrite nth_mapFrom, Hq.
    + unfold Search.detailsPromise. cbn [outcome]. now rewrite Hthrown.
Qed.

Lemma search_failure_reports_first_rejection_witness :
  exists n p,
    nth_error (firstn 20 Sample.fiveCandidates) n = Some p
    /\ outcome (details (Sample.provider Sample.fiveCandidates Sample.thirdFails)
                  n (Places.place_id p) Search.searchFields)
       = Thrown (Some (lit "Request failed with status code 503"))
    /\ forall m q e',
         nth_error (firstn 20 Sample.fiveCandidates) m = Some q ->
         outcome (details (Sample.provider Sample.fiveCandidates Sample.thirdFails)
                    m (Places.place_id q) Search.searchFields) = Thrown e' ->
         (settledAt (details (Sample.provider Sample.fiveCandidates Sample.thirdFails)
                       n (Places.place_id p) Search.searchFields)
          <= settledAt (details (Sample.provider Sample.fiveCandidates Sample.thirdFails)
                          m (Places.place_id q) Search.searchFields))%nat.
Proof.
  apply (search_failure_reports_first_rejection
           (Sample.provider Sample.fiveCandidates Sample.thirdFails)
           Sample.emptyDisk (Some (lit "wonton")) (Some Sample.fiveCandidates)).
  - vm_compute. lia.
  - reflexivity.
  - reflexivity.
Defined.

(** X14.  A search can answer 200 with a list the map of the client
    cannot show: when neither the first candidate nor its details have a
    location, computing the centre of the map throws, although the
    markers skip places without location. *)
Theorem map_centre_throws_without_location gw d raw status body p rest result :
  fst (Search.search gw d raw) = Ok status body ->
  textSearch gw (Search.buildQuery (Search.parseTerms raw)) = Return (Some (p :: rest)) ->
  outcome (details gw 0 (Places.place_id p) Search.searchFields) = Return result ->
  Search.locationOf (Places.geometry p) = None ->
  Search.locationOf
    (Places.geometry (match result with Some r => r | None => emptyPlace end)) = None ->
  (exists message, Client.firstCoords (Search.results body) = Thrown message)
  /\ (forall r, In r (Client.markers (Search.results body)) -> Search.location r <> None).
Proof.
  intros H Hs Hdet Hp Hr. split.
  - destruct (search_ok_results gw d raw status body H) as (data & Hs' & Hall).
    assert (data = Some (p :: rest)) by congruence. subst data.
    specialize (Hall 0%nat). cbn [firstn nth_error] in Hall.
    destruct Hall as (result' & Hdet' & H0).
    assert (result' = result) by congruence. subst result'.
    destruct (Search.results body) as [|r rs]; [discriminate|]. injection H0 as ->.
    unfold Client.firstCoords, Search.summarize. cbn [Search.location].
    rewrite Hp, Hr. cbn. eauto.
  - intros r Hin. apply filter_In in Hin as [_ Hloc].
    now destruct (Search.location r).
Qed.

Lemma map_centre_throws_without_location_witness :
  exists body,
    fst (Search.search (Sample.provider Sample.fiveCandidates (fun _ => Return None))
           Sample.emptyDisk (Some (lit "wonton"))) = Ok 200 body
    /\ (exists message, Client.firstCoords (Search.results body) = Thrown message)
    /\ (forall r, In r (Client.markers (Search.results body)) -> Search.location r <> None).
Proof.
  eexists. split; [reflexivity|].
  eapply (map_centre_throws_without_location
            (Sample.provider Sample.fiveCandidates (fun _ => Return None))
            Sample.emptyDisk (Some (lit "wonton")) 200%nat).
  - reflexivity.
  - reflexivity.
  - reflexivity.
  - reflexivity.
  - reflexivity.
Defined.

(** ** The terms parameter *)

Section Terms.

Implicit Types (s t cur : list N) (l : list (list N)).

Lemma splitCommaFrom_nonempty cur s : splitCommaFrom cur s <> [].
Proof.
  revert cur. induction s as [|c s IH]; intros cur; cbn [splitCommaFrom].
  - discriminate.
  - destruct (c =? 44); [discriminate | apply IH].
Qed.

Lemma splitCommaFrom_no_comma cur s t :
  ~ In 44 cur -> In t (splitCommaFrom cur s) -> ~ In 44 t.
Proof.
  revert cur. induction s as [|c s IH]; intros cur Hcur; cbn [splitCommaFrom].
  - intros [<-|[]]. now rewrite <- in_rev.
  - destruct (N.eqb_spec c 44).
    + intros [<-|Hin]; [now rewrite <- in_rev|]. apply (IH []); auto.
    + apply IH. intros [Hc|Hin]; [congruence | contradiction].
Qed.

(** [split(',')] and [join(',')] are inverse to each other. *)
Lemma join_splitCommaFrom cur s :
  join (lit ",") (splitCommaFrom cur s) = rev cur ++ s.
Proof.
  revert cur. induction s as [|c s IH]; intros cur; cbn [splitCommaFrom].
  - cbn. now rewrite app_nil_r.
  - destruct (N.eqb_spec c 44).
    + subst c. specialize (IH []). pose proof (splitCommaFrom_nonempty [] s) as Hne.
      destruct (splitCommaFrom [] s) as [|x l]; [contradiction|].
      change (join (lit ",") (rev cur :: x :: l))
        with (rev cur ++ lit "," ++ join (lit ",") (x :: l)).
      rewrite IH. reflexivity.
    + rewrite IH. cbn [rev]. now rewrite <- app_assoc.
Qed.

Lemma splitCommaFrom_app cur t s :
  ~ In 44 t -> splitCommaFrom cur (t ++ s) = splitCommaFrom (rev t ++ cur) s.
Proof.
  revert cur. induction t as [|c t IH]; intros cur H; [reflexivity|].
  cbn [app splitCommaFrom].
  destruct (N.eqb_spec c 44); [subst; exfalso; apply H; now left|].
  rewrite IH by (intros Hin; apply H; now right).
  cbn [rev]. now rewrite <- app_assoc.
Qed.

Lemma splitComma_join l :
  l <> [] -> (forall t, In t l -> ~ In 44 t) ->
  splitComma (join (lit ",") l) = l.
Proof.
  unfold splitComma. induction l as [|x l IH]; intros Hne Hall; [contradiction|].
  destruct l as [|y l].
  - change (join (lit ",") [x]) with x. rewrite <- (app_nil_r x) at 1.
    rewrite splitCommaFrom_app by (apply Hall; now left).
    cbn [splitCommaFrom]. now rewrite app_nil_r, rev_involutive.
  - change (join (lit ",") (x :: y :: l))
      with (x ++ 44 :: join (lit ",") (y :: l)).
    rewrite splitCommaFrom_app by (apply Hall; now left).
    cbn [splitCommaFrom]. change (44 =? 44) with true. cbn iota.
    rewrite app_nil_r, rev_involutive. f_equal.
    apply IH; [discriminate|]. intros t Ht. apply Hall. now right.
Qed.

Lemma trimStart_head s c s' : trimStart s = c :: s' -> isWhiteSpace c = false.
Proof.
  induction s as [|a s IH]; [discriminate|]. cbn [trimStart].
  destruct (isWhiteSpace a) eqn:E; [assumption|]. now intros [= <- _].
Qed.

Lemma trimStart_fixed s :
  (forall c s', s = c :: s' -> isWhiteSpace c = false) -> trimStart s = s.
Proof.
  destruct s as [|a s]; [reflexivity|]. intros H. cbn [trimStart].
  now rewrite (H a s eq_refl).
Qed.

Lemma trimStart_suffix s : exists ws, s = ws ++ trimStart s.
Proof.
  induction s as [|a s [ws IH]]; [now exists []|]. cbn [trimStart].
  destruct (isWhiteSpace a); [|now exists []].
  exists (a :: ws). cbn. now rewrite <- IH.
Qed.

Lemma trim_head t c s' : trim t = c :: s' -> isWhiteSpace c = false.
Proof.
  unfold trim, trimEnd. intros H.
  destruct (trimStart_suffix (rev (trimStart t))) as [ws Hws].
  apply (f_equal (@rev N)) in Hws. rewrite rev_involutive, rev_app_distr, H in Hws.
  cbn [app] in Hws. now apply trimStart_head in Hws.
Qed.

Lemma trim_last t c s' : rev (trim t) = c :: s' -> isWhiteSpace c = false.
Proof.
  unfold trim, trimEnd. rewrite rev_involutive. apply trimStart_head.
Qed.

Lemma trim_fixed t :
  (forall c s', t = c :: s' -> isWhiteSpace c = false) ->
  (forall c s', rev t = c :: s' -> isWhiteSpace c = false) ->
  trim t = t.
Proof.
  intros Hhead Hlast. unfold trim, trimEnd.
  rewrite (trimStart_fixed t Hhead), (trimStart_fixed (rev t) Hlast).
  apply rev_involutive.
Qed.

Lemma trim_incl t c : In c (trim t) -> In c t.
Proof.
  assert (Hstart : forall s, In c (trimStart s) -> In c s).
  { intros s H. destruct (trimStart_suffix s) as [ws Heq]. rewrite Heq.
    apply in_or_app. now right. }
  unfold trim, trimEnd. intros H. apply in_rev, Hstart, in_rev, Hstart in H. exact H.
Qed.

End Terms.

Lemma parseTerms_of_string q :
  Search.parseTerms (Some q) = filterBoolean (List.map trim (splitComma q)).
Proof. unfold Search.parseTerms. now destruct q. Qed.

Lemma parseTerms_In raw t :
  In t (Search.parseTerms raw) ->
  t <> [] /\ exists piece, t = trim piece /\ ~ In 44 piece.
Proof.
  unfold Search.parseTerms, filterBoolean. intros H.
  apply filter_In in H as [H Ht]. apply in_map_iff in H as [piece [<- Hp]].
  split; [now destruct (trim piece)|]. exists piece. split; [reflexivity|].
  unfold splitComma in Hp. eapply splitCommaFrom_no_comma; [|exact Hp]. intros [].
Qed.

Lemma trim_idem piece : trim (trim piece) = trim piece.
Proof.
  apply trim_fixed.
  - intros c s' E. exact (trim_head piece c s' E).
  - intros c s' E. exact (trim_last piece c s' E).
Qed.

(** X15.  What the server makes of the [terms] parameter: every term is
    non-empty, contains no comma, and neither begins nor ends with
    whitespace (trimming it again changes nothing). *)
Theorem search_terms_are_clean raw t :
  In t (Search.parseTerms raw) ->
  t <> []
  /\ ~ In 44 t
  /\ trim t = t
  /\ (forall c, hd_error t = Some c \/ hd_error (rev t) = Some c ->
                isWhiteSpace c = false).
Proof.
  intros H. apply parseTerms_In in H as (Hne & piece & -> & Hcomma).
  split; [assumption|]. split; [intros Hin; now apply trim_incl in Hin|].
  split; [apply trim_idem|].
  intros c [Hc|Hc].
  - destruct (trim piece) as [|a u] eqn:E; [discriminate|]. injection Hc as ->.
    exact (trim_head piece c u E).
  - destruct (rev (trim piece)) as [|a u] eqn:E; [discriminate|]. injection Hc as ->.
    exact (trim_last piece c u E).
Qed.

Lemma search_terms_are_clean_witness :
  In (lit "beef brisket") (Search.parseTerms (Some (lit " wonton ,, beef brisket ")))
  /\ trim (lit "beef brisket") = lit "beef brisket".
Proof.
  split; [vm_compute; tauto|].
  apply (search_terms_are_clean (Some (lit " wonton ,, beef brisket ")) (lit "beef brisket")).
  vm_compute. tauto.
Defined.

Lemma parseTerms_fixed l :
  (forall t, In t l -> t <> [] /\ ~ In 44 t /\ trim t = t) ->
  Search.parseTerms (Some (join (lit ",") l)) = l.
Proof.
  intros Hall. rewrite parseTerms_of_string. destruct l as [|x l].
  - reflexivity.
  - rewrite splitComma_join; [|discriminate|intros t Ht; now apply Hall].
    unfold filterBoolean. rewrite filter_all.
    + rewrite <- (map_id (x :: l)) at 2. apply map_ext_in. intros t Ht. now apply Hall.
    + intros t Ht. apply in_map_iff in Ht as [u [<- Hu]].
      destruct (Hall u Hu) as (Hne & _ & ->). now destruct u.
Qed.

(** X16.  Client and server agree on the terms: the cleaned text that the
    search form sends is parsed by the server into the same terms as the
    text that was typed; the form sends nothing exactly when the server
    would find no term, so a search sent by the form is never answered
    400. *)
Theorem client_search_is_never_rejected q :
  Search.parseTerms (Some (Client.cleaned q)) = Search.parseTerms (Some q)
  /\ (Client.onSubmit q = None <-> Search.parseTerms (Some q) = [])
  /\ (forall terms gw d,
        Client.onSubmit q = Some terms ->
        statusOf (fst (Search.search gw d (Some terms))) <> 400%nat).
Proof.
  assert (Hclean : Client.cleaned q = join (lit ",") (Search.parseTerms (Some q))).
  { unfold Client.cleaned. now rewrite parseTerms_of_string. }
  assert (Hsame : Search.parseTerms (Some (Client.cleaned q)) = Search.parseTerms (Some q)).
  { rewrite Hclean. apply parseTerms_fixed. intros t Ht.
    apply parseTerms_In in Ht as (Hne & piece & -> & Hcomma).
    split; [assumption|]. split; [|apply trim_idem].
    intros Hin. now apply trim_incl in Hin. }
  assert (Htruthy : truthy (Client.cleaned q) = true <-> Search.parseTerms (Some q) <> []).
  { rewrite Hclean. destruct (Search.parseTerms (Some q)) as [|x l] eqn:E.
    - cbn. split; [discriminate | congruence].
    - split; [discriminate|]. intros _.
      assert (Hx : x <> []).
      { apply (parseTerms_In (Some q) x). rewrite E. now left. }
      destruct x as [|c x]; [contradiction|]. now destruct l. }
  split; [exact Hsame|]. split.
  - unfold Client.onSubmit. case_eq (truthy (Client.cleaned q)); intros E.
    + split; [discriminate|]. intros Hnil. apply Htruthy in E. contradiction.
    + split; [|reflexivity]. intros _.
      destruct (Search.parseTerms (Some q)) as [|x l] eqn:El; [reflexivity|].
      assert (truthy (Client.cleaned q) = true) by (apply Htruthy; discriminate).
      congruence.
  - intros terms gw d Hsub. unfold Client.onSubmit in Hsub. revert Hsub.
    case_eq (truthy (Client.cleaned q)); intros E Hsub; [|discriminate].
    injection Hsub as <-.
    intros H400.
    apply search_400_iff in H400. rewrite Hsame in H400. apply Htruthy in E. contradiction.
Qed.

(** X17.  The two endpoints read the [terms] parameter alike: the terms
    of the place detail are the terms of the search, in the same order,
    each lower-cased. *)
Theorem place_and_search_agree_on_terms {table : CaseTable}
    {lawful : LowerCases table} raw :
  Place.parseTerms raw = List.map toLowerCase (Search.parseTerms raw)
  /\ length (Place.parseTerms raw) = length (Search.parseTerms raw).
Proof.
  assert (H : Place.parseTerms raw = List.map toLowerCase (Search.parseTerms raw)).
  { rewrite search_terms_are_term_list. apply place_terms_are_lowered. }
  split; [exact H|]. rewrite H. apply length_map.
Qed.

Lemma place_and_search_agree_on_terms_witness :
  Search.parseTerms (Some (lit " Wonton ,, Beef Brisket ")) = [lit "Wonton"; lit "Beef Brisket"]
  /\ Place.parseTerms (table := Sample.ascii) (Some (lit " Wonton ,, Beef Brisket "))
     = List.map (toLowerCase (CaseTable := Sample.ascii))
         (Search.parseTerms (Some (lit " Wonton ,, Beef Brisket ")))
  /\ length (Place.parseTerms (table := Sample.ascii) (Some (lit " Wonton ,, Beef Brisket ")))
     = length (Search.parseTerms (Some (lit " Wonton ,, Beef Brisket "))).
Proof.
  split; [reflexivity|].
  apply (place_and_search_agree_on_terms (lawful := ascii_lawful)
           (Some (lit " Wonton ,, Beef Brisket "))).
Defined.

Section CaseFolding.

Implicit Types (s cur : list N).

Lemma isWhiteSpace_letter c : 65 <= c <= 122 -> isWhiteSpace c = false.
Proof.
  intros H. unfold isWhiteSpace.
  replace (c <=? 13) with false by (symmetry; apply N.leb_gt; lia).
  replace (c =? 32) with false by (symmetry; apply N.eqb_neq; lia).
  replace (c =? 160) with false by (symmetry; apply N.eqb_neq; lia).
  replace (c =? 5760) with false by (symmetry; apply N.eqb_neq; lia).
  replace (8192 <=? c) with false by (symmetry; apply N.leb_gt; lia).
  replace (c =? 8232) with false by (symmetry; apply N.eqb_neq; lia).
  replace (c =? 8233) with false by (symmetry; apply N.eqb_neq; lia).
  replace (c =? 8239) with false by (symmetry; apply N.eqb_neq; lia).
  replace (c =? 8287) with false by (symmetry; apply N.eqb_neq; lia).
  replace (c =? 12288) with false by (symmetry; apply N.eqb_neq; lia).
  replace (c =? 65279) with false by (symmetry; apply N.eqb_neq; lia).
  now rewrite andb_false_r.
Qed.

Lemma lowerUnit_cases c :
  (65 <= c <= 90 /\ lowerUnit c = c + 32) \/ (~ 65 <= c <= 90 /\ lowerUnit c = c).
Proof.
  unfold lowerUnit. destruct (N.leb_spec 65 c), (N.leb_spec c 90); cbn; lia.
Qed.

Lemma isWhiteSpace_lower c : isWhiteSpace (lowerUnit c) = isWhiteSpace c.
Proof.
  destruct (lowerUnit_cases c) as [[H ->]|[_ ->]]; [|reflexivity].
  rewrite !isWhiteSpace_letter by lia. reflexivity.
Qed.

Lemma comma_lower c : (lowerUnit c =? 44) = (c =? 44).
Proof.
  destruct (lowerUnit_cases c) as [[H ->]|[_ ->]]; [|reflexivity].
  destruct (N.eqb_spec (c + 32) 44), (N.eqb_spec c 44); try reflexivity; lia.
Qed.

Lemma lowerUnit_idem c : lowerUnit (lowerUnit c) = lowerUnit c.
Proof.
  destruct (lowerUnit_cases c) as [[H ->]|[H ->]].
  - destruct (lowerUnit_cases (c + 32)) as [[H' _]|[_ ->]]; [lia | reflexivity].
  - destruct (lowerUnit_cases c) as [[H' _]|[_ ->]]; [lia | reflexivity].
Qed.

Lemma lowerUnit_ascii c : (lowerUnit c <? 128) = (c <? 128).
Proof.
  destruct (lowerUnit_cases c) as [[H ->]|[_ ->]]; [|reflexivity].
  destruct (N.ltb_spec (c + 32) 128), (N.ltb_spec c 128); try reflexivity; lia.
Qed.

Lemma trimStart_lower s : trimStart (asciiLower s) = asciiLower (trimStart s).
Proof.
  induction s as [|c s IH]; [reflexivity|]. cbn [asciiLower List.map trimStart].
  rewrite isWhiteSpace_lower. destruct (isWhiteSpace c); [exact IH | reflexivity].
Qed.

Lemma trim_lower s : trim (asciiLower s) = asciiLower (trim s).
Proof.
  unfold trim, trimEnd, asciiLower.
  fold (asciiLower s). rewrite trimStart_lower. unfold asciiLower.
  rewrite <- map_rev. fold (asciiLower (rev (trimStart s))).
  rewrite trimStart_lower. unfold asciiLower. now rewrite map_rev.
Qed.

Lemma splitCommaFrom_lower cur s :
  splitCommaFrom (asciiLower cur) (asciiLower s)
  = List.map asciiLower (splitCommaFrom cur s).
Proof.
  revert cur. induction s as [|c s IH]; intros cur;
    cbn [asciiLower List.map splitCommaFrom].
  - unfold asciiLower. now rewrite map_rev.
  - rewrite comma_lower. destruct (c =? 44).
    + cbn [List.map]. f_equal; [unfold asciiLower; now rewrite map_rev|].
      apply (IH []).
    + apply (IH (c :: cur)).
Qed.

Lemma asciiLower_idem s : asciiLower (asciiLower s) = asciiLower s.
Proof.
  unfold asciiLower. rewrite map_map. apply map_ext. apply lowerUnit_idem.
Qed.

Lemma asciiLower_isAscii s : isAscii (asciiLower s) = isAscii s.
Proof.
  unfold isAscii, asciiLower. induction s as [|c s IH]; [reflexivity|].
  cbn [List.map forallb]. now rewrite lowerUnit_ascii, IH.
Qed.

Lemma isAscii_incl s t : (forall c, In c t -> In c s) -> isAscii s = true -> isAscii t = true.
Proof.
  unfold isAscii. rewrite !forallb_forall. auto.
Qed.

Lemma splitCommaFrom_units cur s piece c :
  In piece (splitCommaFrom cur s) -> In c piece -> In c cur \/ In c s.
Proof.
  revert cur. induction s as [|a s IH]; intros cur Hp Hc.
  - destruct Hp as [<-|[]]. left. now apply in_rev.
  - cbn [splitCommaFrom] in Hp. destruct (a =? 44).
    + destruct Hp as [<-|Hp]; [left; now apply in_rev|].
      destruct (IH _ Hp Hc) as [[]|H]. right. now right.
    + destruct (IH _ Hp Hc) as [[<-|H]|H]; cbn; auto.
Qed.

(** Lower-casing a term list of ASCII text beforehand changes nothing. *)
Lemma lowered_terms_of_ascii {table : CaseTable} {lawful : LowerCases table} s :
  isAscii s = true ->
  Place.parseTerms (Some (toLowerCase s)) = Place.parseTerms (Some s).
Proof.
  intros Hs. rewrite (lower_ascii s Hs). unfold Place.parseTerms.
  replace (splice (orElse (Some (asciiLower s)) (Some []))) with (asciiLower s)
    by now destruct s.
  replace (splice (orElse (Some s) (Some []))) with s by now destruct s.
  assert (Hsplit : splitComma (asciiLower s) = List.map asciiLower (splitComma s))
    by exact (splitCommaFrom_lower [] s).
  rewrite Hsplit, map_map. f_equal. apply map_ext_in. intros t Ht.
  assert (Ht' : isAscii (trim t) = true).
  { apply (isAscii_incl s); [|assumption]. intros c Hc. apply trim_incl in Hc.
    unfold splitComma in Ht. now destruct (splitCommaFrom_units _ _ _ _ Ht Hc) as [[]|H]. }
  rewrite trim_lower, !lower_ascii, asciiLower_idem; try reflexivity; try assumption.
  now rewrite asciiLower_isAscii.
Qed.

End CaseFolding.

(** X18.  The place detail does not see the case of ASCII terms: asking
    with a [terms] parameter of ASCII text lower-cased beforehand gives
    the same answer. *)
Theorem place_ignores_case_of_terms {table : CaseTable} {lawful : LowerCases table}
    gw d pid s :
  isAscii s = true ->
  Place.place gw d pid (Some (toLowerCase s)) = Place.place gw d pid (Some s).
Proof.
  intros Hs. unfold Place.place. destruct (falsy pid); [reflexivity|].
  destruct (outcome (details gw 0 pid Place.placeFields)); [reflexivity|].
  now rewrite (lowered_terms_of_ascii s Hs).
Qed.

Lemma place_ignores_case_of_terms_witness :
  isAscii (lit "Wonton, BEEF brisket") = true
  /\ toLowerCase (CaseTable := Sample.ascii) (lit "Wonton, BEEF brisket")
     = lit "wonton, beef brisket"
  /\ Place.place (table := Sample.ascii)
       (Sample.provider [] (fun _ => Return (Sample.withReviews [Sample.review "Best Wonton"])))
       Sample.emptyDisk (Some (lit "p1"))
       (Some (toLowerCase (CaseTable := Sample.ascii) (lit "Wonton, BEEF brisket")))
     = Place.place (table := Sample.ascii)
         (Sample.provider [] (fun _ => Return (Sample.withReviews [Sample.review "Best Wonton"])))
         Sample.emptyDisk (Some (lit "p1")) (Some (lit "Wonton, BEEF brisket")).
Proof.
  split; [reflexivity|]. split; [reflexivity|].
  apply (place_ignores_case_of_terms (lawful := ascii_lawful)
           (Sample.provider []
              (fun _ => Return (Sample.withReviews [Sample.review "Best Wonton"])))
           Sample.emptyDisk (Some (lit "p1")) (lit "Wonton, BEEF brisket")).
  reflexivity.
Defined.

(** ** More on the keyword extraction *)

Lemma pieces_word_chars s w :
  In w (Spec.pieces s) -> forallb Spec.wordChar w = true.
Proof.
  revert w. induction s as [|c s IH]; intros w Hw.
  - now destruct Hw as [<-|[]].
  - unfold Spec.pieces in Hw. cbn [fold_right] in Hw.
    change (fold_right Spec.cutAt [[]] s) with (Spec.pieces s) in Hw.
    unfold Spec.cutAt in Hw. destruct (Spec.wordChar c) eqn:Ec.
    + destruct (Spec.pieces s) as [|h rest].
      * destruct Hw as [<-|[]]. cbn. now rewrite Ec.
      * destruct Hw as [<-|Hw]; [|apply IH; now right].
        cbn [forallb]. rewrite Ec. apply IH. now left.
    + destruct Hw as [<-|Hw]; [reflexivity | now apply IH].
Qed.

Lemma In_firstn {A} n (l : list A) x : In x (firstn n l) -> In x l.
Proof.
  intros H. rewrite <- (firstn_skipn n l). apply in_or_app. now left.
Qed.

Lemma StronglySorted_app_inv {A} (R : A -> A -> Prop) l1 l2 :
  StronglySorted R (l1 ++ l2) ->
  StronglySorted R l1 /\ forall a b, In a l1 -> In b l2 -> R a b.
Proof.
  induction l1 as [|x l1 IH]; cbn [app]; intros H.
  - split; [constructor | intros a b []].
  - apply StronglySorted_inv in H as [Hs Hx]. destruct (IH Hs) as [Hs1 Hcross].
    rewrite List.Forall_forall in Hx. split.
    + constructor; [assumption|]. apply List.Forall_forall. intros y Hy.
      apply Hx. apply in_or_app. now left.
    + intros a b [<-|Ha] Hb; [|now apply Hcross].
      apply Hx. apply in_or_app. now right.
Qed.

Lemma StronglySorted_map {A B} (f : A -> B) (R : A -> A -> Prop) (R' : B -> B -> Prop) l :
  (forall a b, In a l -> In b l -> R a b -> R' (f a) (f b)) ->
  StronglySorted R l -> StronglySorted R' (List.map f l).
Proof.
  intros HR Hs. induction Hs as [|x l Hs IH Hx]; [constructor|].
  cbn [List.map]. constructor.
  - apply IH. intros a b Ha Hb. apply HR; now right.
  - rewrite List.Forall_forall in Hx. apply List.Forall_forall. intros y Hy.
    apply in_map_iff in Hy as [a [<- Ha]]. apply HR; [now left | now right | auto].
Qed.

Lemma Permutation_in_iff {A} (l l' : list A) x :
  Permutation l l' -> (In x l <-> In x l').
Proof.
  intros H. split; apply Permutation_in; [assumption | now symmetry].
Qed.

(** The ranked word counts behind [dishCandidates]. *)
Lemma candidates_ranking {table : CaseTable} {lawful : LowerCases table} reviews :
  existsb (streq (lit "constructor")) (Spec.countedWords reviews) = false ->
  existsb (streq (lit "__proto__")) (Spec.countedWords reviews) = false ->
  exists ranked,
    Place.candidates reviews = Some (List.map fst (firstn 10 ranked))
    /\ NoDup (List.map fst ranked)
    /\ StronglySorted (fun a b => snd b <= snd a) ranked
    /\ (forall k n,
          In (k, n) ranked <->
          In k (Spec.countedWords reviews)
          /\ n = Spec.occurrences (Spec.countedWords reviews) k).
Proof.
  intros Hc Hp.
  apply (arrayIncludes_false _ (lit "constructor")) in Hc.
  apply (arrayIncludes_false _ (lit "__proto__")) in Hp.
  set (words := Spec.countedWords reviews) in *.
  set (counts := Obj.sort Obj.byIndex
                   (List.map (Spec.withCount words)
                      (Spec.firstSeen (List.filter Obj.isArrayIndex words)))
                 ++ List.map (Spec.withCount words)
                      (Spec.firstSeen (List.filter Spec.namedKey words))).
  exists (Obj.sort Place.byCount counts).
  assert (Hkeys : Permutation (List.map fst counts)
                    (Spec.firstSeen (List.filter Obj.isArrayIndex words)
                     ++ Spec.firstSeen (List.filter Spec.namedKey words))).
  { unfold counts. rewrite map_app.
    rewrite (Permutation_map fst (sort_perm Obj.byIndex _)).
    rewrite !map_map. cbn [Spec.withCount fst]. now rewrite !map_id. }
  assert (Hmem : forall k n,
             In (k, n) counts <-> In k words /\ n = Spec.occurrences words k).
  { intros k n. unfold counts. rewrite in_app_iff.
    rewrite (Permutation_in_iff _ _ _ (sort_perm Obj.byIndex _)).
    rewrite !in_map_iff. split.
    - intros [(k' & [= <- <-] & Hin)|(k' & [= <- <-] & Hin)];
        apply firstSeen_In, filter_In in Hin as [Hin _]; now split.
    - intros (Hin & ->). destruct (Obj.isArrayIndex k) eqn:E.
      + left. exists k. split; [reflexivity|]. apply firstSeen_In, filter_In. auto.
      + right. exists k. split; [reflexivity|]. apply firstSeen_In, filter_In.
        split; [assumption|]. unfold Spec.namedKey. now rewrite E. }
  split; [|split; [|split]].
  - unfold Place.candidates. rewrite (wordCounts_tally _ Hc Hp), entries_of_tally.
    reflexivity.
  - rewrite (Permutation_map fst (sort_perm Place.byCount counts)), Hkeys.
    apply NoDup_app. split; [apply firstSeen_NoDup|]. split; [|apply firstSeen_NoDup].
    intros k Hk Hk'. apply list_elem_of_In, firstSeen_In, filter_In in Hk as [_ Hk].
    apply list_elem_of_In, firstSeen_In, filter_In in Hk' as [_ Hk'].
    unfold Spec.namedKey in Hk'. rewrite Hk in Hk'. discriminate.
  - apply (StronglySorted_weaken
             (fun a b => (- Z.of_N (snd a) <= - Z.of_N (snd b))%Z)).
    + intros a b. lia.
    + apply (sort_sorted Place.byCount (fun a => (- Z.of_N (snd a))%Z)).
      intros a b. unfold Place.byCount. lia.
  - intros k n. rewrite (Permutation_in_iff _ _ _ (sort_perm Place.byCount counts)).
    apply Hmem.
Qed.

(** X19.  What [dishCandidates] can contain: at most ten words, no word
    twice, each one a piece of the lower-cased review text between two
    non-word characters that is longer than one character, is not a
    stop word, and is made of lower-case letters, digits and
    underscores only (review text without the words "constructor" and
    "__proto__"). *)
Theorem dishCandidates_are_counted_words {table : CaseTable}
    {lawful : LowerCases table} gw d pid raw status body l :
  Place.place gw d pid raw = Ok status body ->
  existsb (streq (lit "constructor")) (Spec.countedWords (Place.reviews body)) = false ->
  existsb (streq (lit "__proto__")) (Spec.countedWords (Place.reviews body)) = false ->
  Place.dishCandidates body = Some l ->
  (length l <= 10)%nat
  /\ NoDup l
  /\ forall w,
       In w l ->
       In w (Spec.pieces (Spec.reviewText (Place.reviews body)))
       /\ (1 < length w)%nat
       /\ ~ In w Spec.stopWords
       /\ forallb Spec.wordChar w = true
       /\ Spec.noUpper w = true.
Proof.
  intros H Hc Hp Hl.
  apply place_ok in H as (id & result & _ & _ & _ & _ & _ & _ & Hd & _).
  destruct (candidates_ranking _ Hc Hp) as (ranked & Hcand & Hnd & _ & Hmem).
  rewrite Hd, Hcand in Hl. injection Hl as <-. split; [|split].
  - rewrite length_map, length_firstn. lia.
  - rewrite <- firstn_map. rewrite <- (firstn_skipn 10 (List.map fst ranked)) in Hnd.
    now apply NoDup_app in Hnd as [Hnd _].
  - intros w Hw. apply in_map_iff in Hw as [[k n] [<- Hin]]. cbn [fst].
    apply In_firstn, Hmem in Hin as (Hin & _).
    pose proof (countedWords_lower _ _ Hin) as Hlow.
    unfold Spec.countedWords in Hin. apply filter_In in Hin as [Hin Hcounted].
    unfold Spec.counted in Hcounted. apply andb_true_iff in Hcounted as [Hlen Hstop].
    apply Nat.ltb_lt in Hlen. apply negb_true_iff in Hstop.
    apply (arrayIncludes_false Spec.stopWords k) in Hstop.
    repeat split; try assumption. now apply (pieces_word_chars _ _ Hin).
Qed.

(** X20.  [dishCandidates] really is a top ten: the listed words are in
    order of non-increasing frequency, and no word of the reviews that
    is counted but not listed occurs more often than a listed one
    (review text without the words "constructor" and "__proto__"). *)
Theorem dishCandidates_are_the_most_frequent {table : CaseTable}
    {lawful : LowerCases table} gw d pid raw status body l :
  Place.place gw d pid raw = Ok status body ->
  existsb (streq (lit "constructor")) (Spec.countedWords (Place.reviews body)) = false ->
  existsb (streq (lit "__proto__")) (Spec.countedWords (Place.reviews body)) = false ->
  Place.dishCandidates body = Some l ->
  StronglySorted
    (fun a b => Spec.occurrences (Spec.countedWords (Place.reviews body)) b
                <= Spec.occurrences (Spec.countedWords (Place.reviews body)) a) l
  /\ forall w k,
       In w l ->
       In k (Spec.countedWords (Place.reviews body)) ->
       ~ In k l ->
       Spec.occurrences (Spec.countedWords (Place.reviews body)) k
       <= Spec.occurrences (Spec.countedWords (Place.reviews body)) w.
Proof.
  intros H Hc Hp Hl.
  apply place_ok in H as (id & result & _ & _ & _ & _ & _ & _ & Hd & _).
  destruct (candidates_ranking _ Hc Hp) as (ranked & Hcand & _ & Hsorted & Hmem).
  rewrite Hd, Hcand in Hl. injection Hl as <-.
  set (words := Spec.countedWords (Place.reviews body)) in *.
  rewrite <- (firstn_skipn 10 ranked) in Hsorted.
  apply StronglySorted_app_inv in Hsorted as [Htop Hcross].
  assert (Hsnd : forall e, In e ranked -> snd e = Spec.occurrences words (fst e)).
  { intros [k n] He. apply Hmem in He as (_ & ->). reflexivity. }
  split.
  - eapply StronglySorted_map; [|exact Htop]. cbn beta.
    intros a b Ha Hb Hab. apply In_firstn in Ha, Hb.
    now rewrite <- (Hsnd a Ha), <- (Hsnd b Hb).
  - intros w k Hw Hk Hnot.
    apply in_map_iff in Hw as [e [<- He]].
    assert (Hin : In (k, Spec.occurrences words k) ranked).
    { apply Hmem. now split. }
    rewrite <- (firstn_skipn 10 ranked) in Hin. apply in_app_or in Hin as [Hin|Hin].
    + exfalso. apply Hnot. apply in_map_iff. now exists (k, Spec.occurrences words k).
    + specialize (Hcross e _ He Hin). cbn [snd] in Hcross.
      now rewrite <- (Hsnd e (In_firstn _ _ _ He)).
Qed.

Lemma dishCandidates_are_the_most_frequent_witness :
  exists body,
    Place.place (table := Sample.ascii)
      (Sample.provider []
         (fun _ => Return (Sample.withReviews
            [Sample.review "aa bb cc dd ee ff gg hh ii jj kk ll mm kk"])))
      Sample.emptyDisk (Some (lit "p1")) None = Ok 200 body
    /\ Place.dishCandidates body
       = Some [lit "kk"; lit "aa"; lit "bb"; lit "cc"; lit "dd"; lit "ee"; lit "ff";
               lit "gg"; lit "hh"; lit "ii"]
    /\ StronglySorted
         (fun a b => Spec.occurrences
                       (Spec.countedWords (table := Sample.ascii) (Place.reviews body)) b
                     <= Spec.occurrences
                          (Spec.countedWords (table := Sample.ascii) (Place.reviews body)) a)
         [lit "kk"; lit "aa"; lit "bb"; lit "cc"; lit "dd"; lit "ee"; lit "ff";
          lit "gg"; lit "hh"; lit "ii"]
    /\ forall w k,
         In w [lit "kk"; lit "aa"; lit "bb"; lit "cc"; lit "dd"; lit "ee"; lit "ff";
               lit "gg"; lit "hh"; lit "ii"] ->
         In k (Spec.countedWords (table := Sample.ascii) (Place.reviews body)) ->
         ~ In k [lit "kk"; lit "aa"; lit "bb"; lit "cc"; lit "dd"; lit "ee"; lit "ff";
                 lit "gg"; lit "hh"; lit "ii"] ->
         Spec.occurrences
           (Spec.countedWords (table := Sample.ascii) (Place.reviews body)) k
         <= Spec.occurrences
              (Spec.countedWords (table := Sample.ascii) (Place.reviews body)) w.
Proof.
  eexists. split; [reflexivity|]. split; [reflexivity|].
  eapply (dishCandidates_are_the_most_frequent (lawful := ascii_lawful)
            (Sample.provider []
               (fun _ => Return (Sample.withReviews
                  [Sample.review "aa bb cc dd ee ff gg hh ii jj kk ll mm kk"])))
            Sample.emptyDisk (Some (lit "p1")) None 200%nat).
  - reflexivity.
  - reflexivity.
  - reflexivity.
  - reflexivity.
Defined.

Lemma dishCandidates_are_counted_words_witness :
  exists body,
    Place.place (table := Sample.ascii)
      (Sample.provider []
         (fun _ => Return (Sample.withReviews
            [Sample.review "Great noodles and amazing broth, noodles!"])))
      Sample.emptyDisk (Some (lit "p1")) None = Ok 200 body
    /\ Place.dishCandidates body
       = Some [lit "noodles"; lit "great"; lit "amazing"; lit "broth"]
    /\ (length [lit "noodles"; lit "great"; lit "amazing"; lit "broth"] <= 10)%nat
    /\ NoDup [lit "noodles"; lit "great"; lit "amazing"; lit "broth"]
    /\ forall w,
         In w [lit "noodles"; lit "great"; lit "amazing"; lit "broth"] ->
         In w (Spec.pieces (Spec.reviewText (table := Sample.ascii) (Place.reviews body)))
         /\ (1 < length w)%nat
         /\ ~ In w Spec.stopWords
         /\ forallb Spec.wordChar w = true
         /\ Spec.noUpper w = true.
Proof.
  eexists. split; [reflexivity|]. split; [reflexivity|].
  eapply (dishCandidates_are_counted_words (lawful := ascii_lawful)
            (Sample.provider []
               (fun _ => Return (Sample.withReviews
                  [Sample.review "Great noodles and amazing broth, noodles!"])))
            Sample.emptyDisk (Some (lit "p1")) None 200%nat).
  - reflexivity.
  - reflexivity.
  - reflexivity.
  - reflexivity.
Defined.
